(** * Spell-Checker backend: a shallow embedding of [Backend/spellcheckfunc.c]

    The C file keeps a global dictionary (an array of fixed-size word
    buffers), computes the restricted Damerau-Levenshtein distance with a
    heap-allocated table, and scans the dictionary for suggestions that it
    ranks with an exchange sort.

    Conventions of the embedding:
    - a C string is the list of its characters before the terminating NUL;
    - [int] values are [Z]; where the C code subtracts or scales a signed
      [int] the 32-bit wrap-around is written out ([wrap_int]);
    - loop counters and string lengths are [nat]: strings are taken to be
      shorter than 2^31 characters, so that [int len = strlen(s)] is exact
      (every string that reaches the distance function from the scan is
      shorter than [MAX_WORD_LEN]);
    - [malloc]/[realloc] may fail: the outcomes of the upcoming allocation
      requests are an explicit state, threaded through every function that
      allocates;
    - [printf]/[perror] output is not modelled. *)

From Stdlib Require Import ZArith Ascii String.
From stdpp Require Import base list sorting.

Local Open Scope Z_scope.

(** ** Constants ([#define]s) *)

Definition MAX_WORD_LEN : nat := 50.
Definition MAX_LINE_LEN : nat := 256.
Definition DICTIONARY_SIZE : Z := 375000.
Definition MAX_TEMP_SUGGESTIONS : nat := 1000.

Definition INT_MIN : Z := - 2 ^ 31.
Definition INT_MAX : Z := 2 ^ 31 - 1.

(** Reduction of a mathematical integer to a 32-bit two's complement [int]. *)
Definition wrap_int (z : Z) : Z := (z + 2 ^ 31) mod 2 ^ 32 - 2 ^ 31.

(** [abs] of <stdlib.h> on [int]. *)
Definition c_abs (z : Z) : Z := wrap_int (Z.abs z).

(** ** Characters and C strings *)

Abbreviation cstring := (list ascii).

Definition NUL : ascii := "000"%char.
Definition LF : ascii := "010"%char.
Definition CR : ascii := "013"%char.

(** Literals for examples. *)
Definition str (s : string) : cstring := list_ascii_of_string s.

(** The value of a [char] read as [unsigned char]. *)
Definition uchar (c : ascii) : Z := Z.of_N (N_of_ascii c).

Definition char_eqb (c1 c2 : ascii) : bool := Ascii.eqb c1 c2.

(** [tolower((unsigned char)c)] in the C locale. *)
Definition tolower (c : ascii) : ascii :=
  if (65 <=? uchar c) && (uchar c <=? 90)
  then ascii_of_N (N_of_ascii c + 32)
  else c.

Definition strlen (s : cstring) : nat := length s.

(** [strncpy(dst, src, n); dst[n] = 0] : the first [n] characters of [src]. *)
Definition strncpy (src : cstring) (n : nat) : cstring := take n src.

(** [strcmp]: only the sign of the result is specified; characters compare
    as [unsigned char]. *)
Fixpoint strcmp (s1 s2 : cstring) : Z :=
  match s1, s2 with
  | [], [] => 0
  | [], _ :: _ => -1
  | _ :: _, [] => 1
  | c1 :: t1, c2 :: t2 =>
      if char_eqb c1 c2 then strcmp t1 t2
      else if uchar c1 <? uchar c2 then -1 else 1
  end.

(** [s[i]]: the character at index [i]; reading the terminator (or beyond)
    gives [None]. *)
Definition char_at (s : cstring) (i : nat) : option ascii := s !! i.

Definition same_char (a b : option ascii) : bool :=
  match a, b with
  | Some x, Some y => char_eqb x y
  | None, None => true
  | _, _ => false
  end.

(** ** The allocator

    The list holds the outcomes of the upcoming allocation requests, in
    order ([false]: the request returns NULL); once it is used up every
    request succeeds. *)

Abbreviation heap := (list bool).

Definition malloc (h : heap) : bool * heap :=
  match h with
  | [] => (true, [])
  | ok :: h' => (ok, h')
  end.

(** ** Edit distance *)

Abbreviation table := (list (list Z)).

Definition dp_get (dp : table) (i j : nat) : Z :=
  match dp !! i with
  | Some row => match row !! j with Some v => v | None => 0 end
  | None => 0
  end.

Definition dp_set (dp : table) (i j : nat) (v : Z) : table :=
  alter (fun row => <[j := v]> row) i dp.

(** The loop allocating the rows [dp[0] .. dp[n-1]], each of [cols] cells;
    it stops at the first request that fails. *)
Fixpoint alloc_rows (n cols : nat) (h : heap) : option table * heap :=
  match n with
  | O => (Some [], h)
  | S n' =>
      let '(ok, h1) := malloc h in
      if ok then
        let '(rows, h2) := alloc_rows n' cols h1 in
        (option_map (cons (replicate cols 0)) rows, h2)
      else (None, h1)
  end.

(** [for (k = from; k < from + n; k++) st = body k st]. *)
Definition for_loop {A} (from n : nat) (body : nat → A → A) (st : A) : A :=
  foldl (fun st k => body k st) st (seq from n).

(** Body of the inner loop (lines 77-88).  [fmin] is applied to [int]
    values converted to [double] and its result converted back, which is
    exact: it is [Z.min].  The cells are bounded by the lengths of the
    strings, so that adding 1 does not overflow. *)
Definition fill_cell (s1 s2 : cstring) (i j : nat) (dp : table) : table :=
  let cost := if same_char (char_at s1 (i - 1)) (char_at s2 (j - 1))
              then 0 else 1 in
  let dp := dp_set dp i j
              (Z.min (dp_get dp (i - 1) j + 1)
                 (Z.min (dp_get dp i (j - 1) + 1)
                        (dp_get dp (i - 1) (j - 1) + cost))) in
  if (1 <? i)%nat && (1 <? j)%nat
     && same_char (char_at s1 (i - 1)) (char_at s2 (j - 2))
     && same_char (char_at s1 (i - 2)) (char_at s2 (j - 1))
  then dp_set dp i j (Z.min (dp_get dp i j) (dp_get dp (i - 2) (j - 2) + 1))
  else dp.

Definition fill_table (s1 s2 : cstring) (dp : table) : table :=
  let len1 := strlen s1 in
  let len2 := strlen s2 in
  let dp := for_loop 0 (len1 + 1) (fun i dp => dp_set dp i 0 (Z.of_nat i)) dp in
  let dp := for_loop 0 (len2 + 1) (fun j dp => dp_set dp 0 j (Z.of_nat j)) dp in
  for_loop 1 len1
    (fun i dp => for_loop 1 len2 (fun j dp => fill_cell s1 s2 i j dp) dp) dp.

Definition damerau_levenshtein_distance (s1 s2 : cstring) (h : heap)
  : Z * heap :=
  let len1 := strlen s1 in
  let len2 := strlen s2 in
  if (len1 =? 0)%nat then (Z.of_nat len2, h)
  else if (len2 =? 0)%nat then (Z.of_nat len1, h)
  else
    let '(ok, h) := malloc h in
    if negb ok then (-1, h)
    else
      match alloc_rows (len1 + 1) (len2 + 1) h with
      | (None, h) => (-1, h)
      | (Some dp, h) =>
          let dp := fill_table s1 s2 dp in
          (dp_get dp len1 len2, h)
      end.

(** The recurrence of the specification (optimal string alignment), as a
    function of the prefix lengths [i] and [j]: [dp[i][0] = i],
    [dp[0][j] = j], and for [i, j >= 1] the minimum of deletion, insertion,
    substitution and, when the last two characters are swapped, adjacent
    transposition.  Written from the specification, to be compared with
    [damerau_levenshtein_distance]. *)
Fixpoint osa_distance (a b : cstring) (i : nat) {struct i} : nat → Z :=
  match i with
  | O => fun j => Z.of_nat j
  | S i1 =>
      fix row (j : nat) : Z :=
        match j with
        | O => Z.of_nat (S i1)
        | S j1 =>
            let cost := if same_char (char_at a i1) (char_at b j1)
                        then 0 else 1 in
            let m := Z.min (osa_distance a b i1 (S j1) + 1)
                       (Z.min (row j1 + 1) (osa_distance a b i1 j1 + cost)) in
            match i1, j1 with
            | S i2, S j2 =>
                if same_char (char_at a i1) (char_at b j2)
                   && same_char (char_at a i2) (char_at b j1)
                then Z.min m (osa_distance a b i2 j2 + 1)
                else m
            | _, _ => m
            end
        end
  end.

(** A heap on which the next [n] allocation requests all succeed. *)
Definition allocations_succeed (n : nat) (h : heap) : bool :=
  forallb (fun ok => ok) (take n h).

(** ** The dictionary (global state) *)

(** [struct { char word[MAX_WORD_LEN]; }]: the C string held in the buffer. *)
Abbreviation DictionaryWord := (list ascii).

(** [dictionary] is NULL ([None]) or points to an array; the array is
    represented by the entries written so far. *)
Record globals := {
  dictionary : option (list DictionaryWord);
  dictionary_count : nat;
  dictionary_capacity : Z
}.

(** The state at program start. *)
Definition initial_globals : globals :=
  {| dictionary := None; dictionary_count := 0; dictionary_capacity := 0 |}.

Definition cleanup (g : globals) : globals :=
  {| dictionary := None; dictionary_count := 0; dictionary_capacity := 0 |}.

(** [strcspn(s, reject)]. *)
Fixpoint strcspn (s reject : cstring) : nat :=
  match s with
  | [] => O
  | c :: t => if existsb (char_eqb c) reject then O else S (strcspn t reject)
  end.

(** The bytes a buffer holds, read as a C string: up to the first NUL. *)
Definition c_str (buf : list ascii) : cstring := take (strcspn buf [NUL]) buf.

(** [fgets(line, n, file)] on the unread part of the file: at most [room]
    characters, stopping after a newline. *)
Fixpoint fgets_chars (room : nat) (file : list ascii)
  : list ascii * list ascii :=
  match room, file with
  | O, _ => ([], file)
  | _, [] => ([], [])
  | S room', c :: rest =>
      if char_eqb c LF then ([c], rest)
      else let '(l, r) := fgets_chars room' rest in (c :: l, r)
  end.

(** [None] is the NULL returned at end of file. *)
Definition fgets (n : nat) (file : list ascii)
  : option (list ascii * list ascii) :=
  match file with
  | [] => None
  | _ :: _ => Some (fgets_chars (n - 1) file)
  end.

(** Lines 127-132: cut at the first newline or carriage return, fold to
    lower case. *)
Definition normalize_line (buf : list ascii) : cstring :=
  let line := c_str buf in
  map tolower (take (strcspn line [LF; CR]) line).

(** The [while (fgets ...)] loop of [load_dictionary] (lines 125-160) and
    the code after it.  [fuel] bounds the number of iterations; every
    [fgets] consumes at least one character, so the length of the file is
    enough ([read_lines_fuel]).  The result is the return value with the
    three globals. *)
Fixpoint read_lines (fuel : nat) (file : list ascii)
    (arr : list DictionaryWord) (count : nat) (capacity : Z) (h : heap)
  : option (Z * globals * heap) :=
  match fgets MAX_LINE_LEN file with
  | None =>
      Some (1, {| dictionary := Some arr; dictionary_count := count;
                  dictionary_capacity := capacity |}, h)
  | Some (buf, rest) =>
      match fuel with
      | O => None
      | S fuel' =>
          let line := normalize_line buf in
          if (strlen line <? MAX_WORD_LEN)%nat then
            if Z.of_nat count >=? capacity then
              let capacity := wrap_int (capacity * 2) in
              let '(ok, h) := malloc h in
              if negb ok then
                Some (0, {| dictionary := None; dictionary_count := 0;
                            dictionary_capacity := 0 |}, h)
              else
                read_lines fuel' rest
                  (arr ++ [strncpy line (MAX_WORD_LEN - 1)]) (S count)
                  capacity h
            else
              read_lines fuel' rest
                (arr ++ [strncpy line (MAX_WORD_LEN - 1)]) (S count)
                capacity h
          else read_lines fuel' rest arr count capacity h
      end
  end.

(** [load_dictionary]: [file] is what [fopen] yields for the file name,
    [None] when the file cannot be opened, else its content.  The loop is
    given the length of the content as fuel and never runs out of it
    ([read_lines_fuel]), so the last branch is never taken. *)
Definition load_dictionary (file : option (list ascii)) (g : globals)
    (h : heap) : Z * globals * heap :=
  let g := cleanup g in
  match file with
  | None => (0, g, h)
  | Some content =>
      let '(ok, h) := malloc h in
      if negb ok then
        (0, {| dictionary := None; dictionary_count := 0;
               dictionary_capacity := DICTIONARY_SIZE |}, h)
      else
        match read_lines (length content) content [] 0 DICTIONARY_SIZE h with
        | Some r => r
        | None => (0, g, h)
        end
  end.

(** Every entry fits its buffer. *)
Definition words_fit (arr : list DictionaryWord) : bool :=
  forallb (fun w => (strlen w <? MAX_WORD_LEN)%nat) arr.

(** The invariant of a store: the count is the number of entries and every
    entry fits its buffer. *)
Definition store_ok (g : globals) : bool :=
  match dictionary g with
  | None => (dictionary_count g =? 0)%nat
  | Some arr => (dictionary_count g =? length arr)%nat && words_fit arr
  end.

(** ** Membership *)

(** Lines 176-181 and 206-211: copy at most [MAX_WORD_LEN - 1] characters
    and fold them to lower case. *)
Definition lower_copy (word : cstring) : cstring :=
  map tolower (strncpy word (MAX_WORD_LEN - 1)).

(** The scan of lines 185-194. *)
Fixpoint find_word (lower_word : cstring) (ws : list DictionaryWord) : Z :=
  match ws with
  | [] => 0
  | w :: rest =>
      if strcmp lower_word w =? 0 then 1 else find_word lower_word rest
  end.

Definition is_word_correct (g : globals) (word : cstring) : Z :=
  match dictionary g with
  | None => 0
  | Some arr =>
      if (dictionary_count g =? 0)%nat then 0
      else find_word (lower_copy word) (take (dictionary_count g) arr)
  end.

(** The normalization the specification describes for queries: trim the
    trailing newline / carriage return, fold to lower case. *)
Definition normalize_spec (word : cstring) : cstring :=
  map tolower (take (strcspn word [LF; CR]) word).

(** ** Suggestions *)

Record Suggestion := { word : cstring; dist : Z }.

(** The test of lines 263-264, with [a = suggestions[j]] and
    [b = suggestions[i]]. *)
Definition ranks_before (a b : Suggestion) : bool :=
  (dist a <? dist b)
  || ((dist a =? dist b) && (strcmp (word a) (word b) <? 0)).

(** Body of the inner loop of [sort_suggestions]. *)
Definition sort_step (i j : nat) (s : list Suggestion) : list Suggestion :=
  match s !! i, s !! j with
  | Some si, Some sj =>
      if ranks_before sj si then <[j := si]> (<[i := sj]> s) else s
  | _, _ => s
  end.

Definition sort_suggestions (suggestions : list Suggestion) (count : nat)
  : list Suggestion :=
  for_loop 0 (count - 1)
    (fun i s => for_loop (i + 1) (count - (i + 1)) (fun j s => sort_step i j s) s)
    suggestions.

(** The two length filters of lines 222-229; [true] when the dictionary
    word passes both. *)
Definition length_filter (misspelled_word_len length_tolerance : Z)
    (dict_word : DictionaryWord) : bool :=
  let current_dict_word_len := Z.of_nat (strlen dict_word) in
  if current_dict_word_len <? misspelled_word_len then false
  else if c_abs (wrap_int (current_dict_word_len - misspelled_word_len))
          >? length_tolerance
  then false
  else true.

(** The scan of lines 217-250 over the remaining dictionary entries; the
    state is the allocator, the caller's buffer and [suggestion_count]. *)
Fixpoint scan (lower_word : cstring)
    (tolerance misspelled_word_len length_tolerance : Z)
    (ws : list DictionaryWord)
    (h : heap) (suggestions : list Suggestion) (suggestion_count : nat)
  : heap * list Suggestion * nat :=
  match ws with
  | [] => (h, suggestions, suggestion_count)
  | dict_word :: rest =>
      if negb (length_filter misspelled_word_len length_tolerance dict_word)
      then scan lower_word tolerance misspelled_word_len length_tolerance
             rest h suggestions suggestion_count
      else
        let '(d, h) := damerau_levenshtein_distance lower_word dict_word h in
        if (0 <=? d) && (d <=? tolerance) then
          if (suggestion_count <? MAX_TEMP_SUGGESTIONS)%nat then
            scan lower_word tolerance misspelled_word_len length_tolerance
              rest h
              (<[suggestion_count :=
                   {| word := strncpy dict_word (MAX_WORD_LEN - 1);
                      dist := d |}]> suggestions)
              (S suggestion_count)
          else (h, suggestions, suggestion_count)
        else scan lower_word tolerance misspelled_word_len length_tolerance
               rest h suggestions suggestion_count
  end.

(** [get_suggestions]: the result is the return value, the caller's buffer
    after the call, and the allocator. *)
Definition get_suggestions (g : globals) (word : cstring)
    (tolerance misspelled_word_len length_tolerance : Z)
    (suggestions : list Suggestion) (h : heap)
  : Z * list Suggestion * heap :=
  match dictionary g with
  | None => (0, suggestions, h)
  | Some arr =>
      if (dictionary_count g =? 0)%nat then (0, suggestions, h)
      else
        let lower_word := lower_copy word in
        let '(h, suggestions, suggestion_count) :=
          scan lower_word tolerance misspelled_word_len length_tolerance
            (take (dictionary_count g) arr) h suggestions 0 in
        (Z.of_nat suggestion_count,
         sort_suggestions suggestions suggestion_count, h)
  end.

(** The suggestions a call returns: the first [count] entries of the
    buffer. *)
Definition returned (r : Z * list Suggestion * heap) : list Suggestion :=
  take (Z.to_nat (fst (fst r))) (snd (fst r)).

(** Lexicographic order of words, characters compared as unsigned bytes: a
    proper prefix comes first, otherwise the first differing character
    decides. *)
Inductive lex_le : cstring → cstring → Prop :=
  | lex_le_nil s : lex_le [] s
  | lex_le_lt c1 c2 t1 t2 : uchar c1 < uchar c2 → lex_le (c1 :: t1) (c2 :: t2)
  | lex_le_eq c t1 t2 : lex_le t1 t2 → lex_le (c :: t1) (c :: t2).

(** The order of the ranking: ascending distance, ties by ascending word
    (the comparison [sort_suggestions] makes, with [strcmp]). *)
Definition ranked_le (a b : Suggestion) : Prop :=
  dist a < dist b ∨ (dist a = dist b ∧ strcmp (word a) (word b) <= 0).

(** All the candidates a scan without a cap accepts, in store order: those
    that pass both length filters and whose distance [d] satisfies
    [0 <= d <= tolerance]. *)
Fixpoint qualifying (lower_word : cstring)
    (tolerance misspelled_word_len length_tolerance : Z)
    (ws : list DictionaryWord) (h : heap) : list Suggestion :=
  match ws with
  | [] => []
  | dict_word :: rest =>
      if negb (length_filter misspelled_word_len length_tolerance dict_word)
      then qualifying lower_word tolerance misspelled_word_len
             length_tolerance rest h
      else
        let '(d, h) := damerau_levenshtein_distance lower_word dict_word h in
        if (0 <=? d) && (d <=? tolerance) then
          {| word := dict_word; dist := d |}
          :: qualifying lower_word tolerance misspelled_word_len
               length_tolerance rest h
        else qualifying lower_word tolerance misspelled_word_len
               length_tolerance rest h
  end.

(** A caller's buffer of [MAX_TEMP_SUGGESTIONS] entries. *)
Definition fresh_buffer : list Suggestion :=
  replicate MAX_TEMP_SUGGESTIONS {| word := []; dist := 0 |}.

(** ** Invariants used in the proofs *)

(** A table of [rows] rows of [cols] cells. *)
Definition shape (rows cols : nat) (dp : table) : Prop :=
  length dp = rows ∧ Forall (fun r => length r = cols) dp.

(** Invariant of the main loops of the distance function: the table has
    its shape and the cells of column 0, of the rows before [i], and of row
    [i] before column [j] hold the recurrence. *)
Definition filled_upto (s1 s2 : cstring) (i j : nat) (dp : table) : Prop :=
  shape (strlen s1 + 1) (strlen s2 + 1) dp ∧
  ∀ i' j', (i' ≤ strlen s1)%nat → (j' ≤ strlen s2)%nat →
    (i' < i ∨ j' = 0 ∨ (i' = i ∧ j' < j))%nat →
    dp_get dp i' j' = osa_distance s1 s2 i' j'.

(** Invariants of [sort_suggestions]: the entries at positions [p < i] are
    in rank order with every later entry below [count] ... *)
Definition prefix_ranked (count i : nat) (s : list Suggestion) : Prop :=
  ∀ p q a b, (p < q < count)%nat → (p < i)%nat →
    s !! p = Some a → s !! q = Some b → ranked_le a b.

(** ... and entry [i] ranks no later than the entries strictly between
    [i] and [j]. *)
Definition least_so_far (i j : nat) (s : list Suggestion) : Prop :=
  ∀ q a b, (i < q < j)%nat →
    s !! i = Some a → s !! q = Some b → ranked_le a b.

(** The index map of an exchange of positions [i] and [j]. *)
Definition exchange (i j k : nat) : nat :=
  if decide (k = i) then j else if decide (k = j) then i else k.

(** What line 241-243 stores for an accepted candidate. *)
Definition stored_entry (s : Suggestion) : Suggestion :=
  {| word := strncpy (word s) (MAX_WORD_LEN - 1); dist := dist s |}.

(** The entries of the store that the scans visit. *)
Definition store_words (g : globals) : list DictionaryWord :=
  match dictionary g with
  | None => []
  | Some arr => take (dictionary_count g) arr
  end.

(** The states in which the queries find no dictionary: the pointer is
    NULL, the count is 0, or the state is what a failed load left. *)
Definition no_dictionary (g : globals) : Prop :=
  dictionary g = None
  ∨ dictionary_count g = 0%nat
  ∨ ∃ file g0 h0 h1, load_dictionary file g0 h0 = (0, g, h1).

(** A position in the file where a line starts: nothing has been read, or
    what has been read ends with a newline. *)
Definition line_start (pre : list ascii) : bool :=
  match last pre with
  | None => true
  | Some c => char_eqb c LF
  end.

Definition no_newline (line : list ascii) : bool :=
  forallb (fun c => negb (char_eqb c LF)) line.

(** ** Word lists *)

(** A character that is neither a line terminator nor NUL. *)
Definition clean_char (c : ascii) : bool :=
  negb (char_eqb c LF) && negb (char_eqb c CR) && negb (char_eqb c NUL).

(** A word as a dictionary file is meant to hold it: no line terminator or
    NUL inside, short enough for a word buffer. *)
Definition clean_word (w : cstring) : bool :=
  forallb clean_char w && (strlen w <? MAX_WORD_LEN)%nat.

(** The file with one word per line, each line ended by a newline. *)
Definition word_file (ws : list cstring) : list ascii :=
  flat_map (fun w => w ++ [LF]) ws.

(** A character as the store holds it: [tolower] leaves it as it is and it
    is neither a line terminator nor NUL. *)
Definition normal_char (c : ascii) : bool :=
  char_eqb (tolower c) c && clean_char c.

(** ** Stores used in examples *)

Definition store_of (ws : list DictionaryWord) : globals :=
  {| dictionary := Some ws; dictionary_count := length ws;
     dictionary_capacity := DICTIONARY_SIZE |}.

Definition demo_store : globals :=
  {| dictionary := Some [str "anyway"; str "any"; str "airway"];
     dictionary_count := 3; dictionary_capacity := DICTIONARY_SIZE |}.

(** A store in which more than [MAX_TEMP_SUGGESTIONS] entries match. *)
Definition crowded_store : globals :=
  store_of (replicate MAX_TEMP_SUGGESTIONS (str "ab") ++ [str "ba"]).

(** * Examples *)

Example distance_ab_ba :
  fst (damerau_levenshtein_distance (str "ab") (str "ba") []) = 1.
Proof. reflexivity. Qed.

Example distance_kitten_sitting :
  fst (damerau_levenshtein_distance (str "kitten") (str "sitting") []) = 3.
Proof. reflexivity. Qed.

Example distance_nayway_anyway :
  fst (damerau_levenshtein_distance (str "nayway") (str "anyway") []) = 1.
Proof. reflexivity. Qed.

Example distance_rows_fail :
  damerau_levenshtein_distance (str "ab") (str "ba") [false; true] = (-1, [true]).
Proof. reflexivity. Qed.

Example distance_column_fail :
  damerau_levenshtein_distance (str "ab") (str "ba") [true; true; false; true]
  = (-1, [true]).
Proof. reflexivity. Qed.

Example load_three_words :
  load_dictionary
    (Some (str "Anyway" ++ [CR; LF] ++ str "any" ++ [LF] ++ str "airway" ++ [LF]))
    initial_globals []
  = (1, {| dictionary := Some [str "anyway"; str "any"; str "airway"];
           dictionary_count := 3; dictionary_capacity := DICTIONARY_SIZE |},
     []).
Proof. reflexivity. Qed.

Example nayway_not_correct : is_word_correct demo_store (str "nayway") = 0.
Proof. reflexivity. Qed.

Example anyway_correct : is_word_correct demo_store (str "AnyWay") = 1.
Proof. reflexivity. Qed.

Example nayway_suggestions :
  returned (get_suggestions demo_store (str "nayway") 3 6 2 fresh_buffer [])
  = [ {| word := str "anyway"; dist := 1 |};
      {| word := str "airway"; dist := 3 |} ].
Proof. vm_compute. reflexivity. Qed.

(** * Loops *)

Lemma for_loop_nil {A} from (body : nat → A → A) st :
  for_loop from 0 body st = st.
Proof. reflexivity. Qed.

Lemma for_loop_step {A} from n (body : nat → A → A) st :
  for_loop from (S n) body st = for_loop (S from) n body (body from st).
Proof. reflexivity. Qed.

(** Invariant rule for [for_loop]. *)
Lemma for_loop_inv {A} (P : nat → A → Prop) n :
  ∀ from (body : nat → A → A) st,
    P from st →
    (∀ k x, (from ≤ k < from + n)%nat → P k x → P (S k) (body k x)) →
    P (from + n)%nat (for_loop from n body st).
Proof.
  induction n as [|n IH]; intros from body st H0 Hstep.
  - rewrite Nat.add_0_r. exact H0.
  - rewrite for_loop_step, <- Nat.add_succ_comm. apply IH.
    + apply Hstep; [lia | exact H0].
    + intros k x Hk. apply Hstep. lia.
Qed.

(** * The distance table *)

Lemma shape_set rows cols dp i j v :
  shape rows cols dp → shape rows cols (dp_set dp i j v).
Proof.
  intros [Hl Hr]. split.
  - unfold dp_set. by rewrite length_alter.
  - unfold dp_set. apply Forall_lookup. intros k r Hk.
    destruct (decide (i = k)) as [->|Hne].
    + rewrite list_lookup_alter_eq in Hk.
      destruct (dp !! k) as [r0|] eqn:E; simplify_eq/=.
      rewrite length_insert. eapply (Forall_lookup_1 _ _ _ _ Hr E).
    + rewrite list_lookup_alter_ne in Hk by done.
      eapply (Forall_lookup_1 _ _ _ _ Hr Hk).
Qed.

Lemma dp_get_set_eq rows cols dp i j v :
  shape rows cols dp → (i < rows)%nat → (j < cols)%nat →
  dp_get (dp_set dp i j v) i j = v.
Proof.
  intros [Hl Hr] Hi Hj. unfold dp_get, dp_set.
  rewrite list_lookup_alter_eq.
  destruct (lookup_lt_is_Some_2 dp i) as [r Er]; [lia|].
  rewrite Er. simpl.
  rewrite list_lookup_insert_eq; [done|].
  rewrite (Forall_lookup_1 _ _ _ _ Hr Er). lia.
Qed.

Lemma dp_get_set_ne dp i j v i' j' :
  (i ≠ i' ∨ j ≠ j') →
  dp_get (dp_set dp i j v) i' j' = dp_get dp i' j'.
Proof.
  intros Hne. unfold dp_get, dp_set.
  destruct (decide (i = i')) as [->|Hi].
  - rewrite list_lookup_alter_eq. destruct (dp !! i') as [r|]; simpl; [|done].
    rewrite list_lookup_insert_ne; [done | by destruct Hne].
  - by rewrite list_lookup_alter_ne.
Qed.

Lemma alloc_rows_shape n cols : ∀ h dp h',
  alloc_rows n cols h = (Some dp, h') → shape n cols dp.
Proof.
  induction n as [|n IH]; intros h dp h' H; simpl in H.
  - simplify_eq. split; [done | constructor].
  - destruct (malloc h) as [ok h1]. destruct ok; [|done].
    destruct (alloc_rows n cols h1) as [[rows|] h2] eqn:E; simplify_eq/=.
    destruct (IH _ _ _ E) as [Hl Hr]. split; simpl; [by rewrite Hl|].
    constructor; [apply length_replicate | done].
Qed.

(** * The recurrence *)

Lemma osa_distance_0_l a b j : osa_distance a b 0 j = Z.of_nat j.
Proof. reflexivity. Qed.

Lemma osa_distance_0_r a b i : osa_distance a b i 0 = Z.of_nat i.
Proof. destruct i; reflexivity. Qed.

(** The transition of the recurrence, in the shape of the loop body. *)
Lemma osa_distance_step a b i j :
  (1 ≤ i)%nat → (1 ≤ j)%nat →
  osa_distance a b i j =
    let cost := if same_char (char_at a (i - 1)) (char_at b (j - 1))
                then 0 else 1 in
    let m := Z.min (osa_distance a b (i - 1) j + 1)
               (Z.min (osa_distance a b i (j - 1) + 1)
                      (osa_distance a b (i - 1) (j - 1) + cost)) in
    if (1 <? i)%nat && (1 <? j)%nat
       && same_char (char_at a (i - 1)) (char_at b (j - 2))
       && same_char (char_at a (i - 2)) (char_at b (j - 1))
    then Z.min m (osa_distance a b (i - 2) (j - 2) + 1)
    else m.
Proof.
  intros Hi Hj.
  destruct i as [|[|i]]; [lia| |]; (destruct j as [|[|j]]; [lia| |]);
    cbn [Nat.sub Nat.ltb Nat.leb andb];
    rewrite ?Nat.sub_0_r; reflexivity.
Qed.

Lemma osa_distance_nonneg a b : ∀ i j, 0 <= osa_distance a b i j.
Proof.
  induction i as [i IHi] using lt_wf_ind.
  induction j as [j IHj] using lt_wf_ind.
  destruct (decide (i = 0%nat)) as [->|Hi]; [rewrite osa_distance_0_l; lia|].
  destruct (decide (j = 0%nat)) as [->|Hj]; [rewrite osa_distance_0_r; lia|].
  rewrite osa_distance_step by lia. cbv zeta.
  pose proof (IHi (i - 1)%nat ltac:(lia) j).
  pose proof (IHi (i - 1)%nat ltac:(lia) (j - 1)%nat).
  pose proof (IHj (j - 1)%nat ltac:(lia)).
  assert (0 <= osa_distance a b (i - 2) (j - 2) + 1).
  { destruct (decide (i = 1%nat)) as [->|]; [simpl; lia|].
    pose proof (IHi (i - 2)%nat ltac:(lia) (j - 2)%nat). lia. }
  repeat case_match; lia.
Qed.

(** * The table loops compute the recurrence *)

Section FillTable.
Variables s1 s2 : cstring.

Local Abbreviation len1 := (strlen s1).
Local Abbreviation len2 := (strlen s2).

Local Abbreviation filled_upto := (filled_upto s1 s2).

Lemma init_loops_filled dp :
  shape (len1 + 1) (len2 + 1) dp →
  filled_upto 1 1
    (for_loop 0 (len2 + 1) (fun j dp => dp_set dp 0 j (Z.of_nat j))
       (for_loop 0 (len1 + 1) (fun i dp => dp_set dp i 0 (Z.of_nat i)) dp)).
Proof.
  intros Hshape.
  pose (P1 := fun (k : nat) (t : table) =>
    shape (len1 + 1) (len2 + 1) t ∧
    ∀ i', (i' < k)%nat → dp_get t i' 0 = Z.of_nat i').
  assert (H1 : P1 (0 + (len1 + 1))%nat
    (for_loop 0 (len1 + 1) (fun i dp => dp_set dp i 0 (Z.of_nat i)) dp)).
  { apply (for_loop_inv P1).
    - split; [done | intros; lia].
    - intros k t Hk [Ht Hcol]. split; [by apply shape_set|].
      intros i' Hi'. destruct (decide (i' = k)) as [->|Hne].
      + rewrite (dp_get_set_eq _ _ _ _ _ _ Ht); [done | lia | lia].
      + rewrite dp_get_set_ne by (left; done). apply Hcol. lia. }
  destruct H1 as [Ht1 Hcol]. revert Ht1 Hcol.
  generalize (for_loop 0 (len1 + 1)
                (fun i dp => dp_set dp i 0 (Z.of_nat i)) dp).
  intros t1 Ht1 Hcol.
  pose (P2 := fun (k : nat) (t : table) =>
    shape (len1 + 1) (len2 + 1) t ∧
    (∀ i', (i' ≤ len1)%nat → dp_get t i' 0 = Z.of_nat i') ∧
    ∀ j', (j' < k)%nat → dp_get t 0 j' = Z.of_nat j').
  assert (H2 : P2 (0 + (len2 + 1))%nat
    (for_loop 0 (len2 + 1) (fun j dp => dp_set dp 0 j (Z.of_nat j)) t1)).
  { apply (for_loop_inv P2).
    - split; [done|]. split; [intros; apply Hcol; lia | intros; lia].
    - intros k t Hk (Ht & Hc & Hr). split; [by apply shape_set|]. split.
      + intros i' Hi'. destruct (decide (i' = 0%nat ∧ k = 0%nat)) as [[-> ->]|Hne].
        * rewrite (dp_get_set_eq _ _ _ _ _ _ Ht); [done | lia | lia].
        * rewrite dp_get_set_ne by lia. by apply Hc.
      + intros j' Hj'. destruct (decide (j' = k)) as [->|Hne].
        * rewrite (dp_get_set_eq _ _ _ _ _ _ Ht); [done | lia | lia].
        * rewrite dp_get_set_ne by (right; done). apply Hr. lia. }
  destruct H2 as (Ht2 & Hc & Hr). split; [done|].
  intros i' j' Hi' Hj' Hreg.
  destruct (decide (j' = 0%nat)) as [->|Hj0].
  - rewrite osa_distance_0_r. by apply Hc.
  - assert (i' = 0%nat) as -> by lia.
    rewrite osa_distance_0_l. apply Hr. lia.
Qed.

Lemma fill_cell_filled i j dp :
  (1 ≤ i ≤ len1)%nat → (1 ≤ j ≤ len2)%nat →
  filled_upto i j dp → filled_upto i (S j) (fill_cell s1 s2 i j dp).
Proof.
  intros Hi Hj [Hshape Hdp].
  assert (Hval : dp_get (fill_cell s1 s2 i j dp) i j = osa_distance s1 s2 i j
                 ∧ shape (len1 + 1) (len2 + 1) (fill_cell s1 s2 i j dp)
                 ∧ ∀ i' j', (i' ≠ i ∨ j' ≠ j) →
                     dp_get (fill_cell s1 s2 i j dp) i' j' = dp_get dp i' j').
  { unfold fill_cell. cbv zeta.
    rewrite (osa_distance_step s1 s2 i j) by lia. cbv zeta.
    rewrite (Hdp (i - 1)%nat j) by lia.
    rewrite (Hdp i (j - 1)%nat) by lia.
    rewrite (Hdp (i - 1)%nat (j - 1)%nat) by lia.
    set (v := Z.min _ _).
    pose proof (shape_set _ _ dp i j v Hshape) as Hshape1.
    destruct ((1 <? i)%nat && (1 <? j)%nat
              && same_char (char_at s1 (i - 1)) (char_at s2 (j - 2))
              && same_char (char_at s1 (i - 2)) (char_at s2 (j - 1))) eqn:Hc.
    - apply andb_prop in Hc as [Hc _]. apply andb_prop in Hc as [Hc _].
      apply andb_prop in Hc as [Hi1 Hj1].
      apply Nat.ltb_lt in Hi1, Hj1.
      split; [|split].
      + rewrite (dp_get_set_eq _ _ _ _ _ _ Hshape1) by lia.
        rewrite (dp_get_set_eq _ _ _ _ _ _ Hshape) by lia.
        rewrite dp_get_set_ne by lia.
        rewrite (Hdp (i - 2)%nat (j - 2)%nat) by lia. done.
      + by apply shape_set.
      + intros i' j' Hne. rewrite !dp_get_set_ne by lia. done.
    - split; [|split].
      + rewrite (dp_get_set_eq _ _ _ _ _ _ Hshape) by lia. done.
      + done.
      + intros i' j' Hne. rewrite dp_get_set_ne by lia. done. }
  destruct Hval as (Hv & Hs & Hother). split; [done|].
  intros i' j' Hi' Hj' Hreg.
  destruct (decide (i' = i ∧ j' = j)) as [[-> ->]|Hne]; [done|].
  rewrite Hother by lia. apply Hdp; lia.
Qed.

Lemma fill_table_correct dp :
  shape (len1 + 1) (len2 + 1) dp →
  dp_get (fill_table s1 s2 dp) len1 len2 = osa_distance s1 s2 len1 len2.
Proof.
  intros Hshape. unfold fill_table. cbv zeta.
  pose proof (init_loops_filled dp Hshape) as Hinit. revert Hinit.
  generalize (for_loop 0 (len2 + 1) (fun j dp => dp_set dp 0 j (Z.of_nat j))
       (for_loop 0 (len1 + 1) (fun i dp => dp_set dp i 0 (Z.of_nat i)) dp)).
  intros t0 Hinit.
  assert (Hrows : filled_upto (1 + len1) 1
    (for_loop 1 len1
       (fun i dp => for_loop 1 len2 (fun j dp => fill_cell s1 s2 i j dp) dp)
       t0)).
  { apply (for_loop_inv (fun i t => filled_upto i 1 t)); [done|].
    intros i t Hi Ht.
    assert (Hrow : filled_upto i (1 + len2)
              (for_loop 1 len2 (fun j dp => fill_cell s1 s2 i j dp) t)).
    { apply (for_loop_inv (fun j t => filled_upto i j t)); [done|].
      intros j t' Hj Ht'. apply fill_cell_filled; [lia | lia | done]. }
    destruct Hrow as [Hs Hc]. split; [done|].
    intros i' j' Hi' Hj' Hreg. apply Hc; lia. }
  destruct Hrows as [_ Hc]. apply Hc; lia.
Qed.
End FillTable.

(** * The distance function *)

Lemma same_char_sym x y : same_char x y = same_char y x.
Proof.
  destruct x as [x|], y as [y|]; simpl; try done.
  unfold char_eqb. apply Ascii.eqb_sym.
Qed.

Lemma same_char_refl x : same_char x x = true.
Proof. destruct x as [x|]; simpl; [apply Ascii.eqb_refl | done]. Qed.

Lemma allocations_succeed_S n h :
  allocations_succeed (S n) h = true →
  ∃ h', malloc h = (true, h') ∧ allocations_succeed n h' = true.
Proof.
  destruct h as [|ok h]; simpl.
  - intros _. exists []. split; [done|]. by destruct n.
  - unfold allocations_succeed. simpl. intros [-> H]%andb_prop. by exists h.
Qed.

Lemma alloc_rows_succeed n cols : ∀ h,
  allocations_succeed n h = true →
  ∃ dp h', alloc_rows n cols h = (Some dp, h').
Proof.
  induction n as [|n IH]; intros h H; simpl.
  - by exists [], h.
  - apply allocations_succeed_S in H as (h1 & -> & H1).
    destruct (IH h1 H1) as (dp & h2 & ->). simpl. by eexists _, _.
Qed.

(** The result is the failure sentinel or the recurrence. *)
Lemma distance_cases s1 s2 h :
  fst (damerau_levenshtein_distance s1 s2 h) = -1
  ∨ fst (damerau_levenshtein_distance s1 s2 h)
    = osa_distance s1 s2 (strlen s1) (strlen s2).
Proof.
  unfold damerau_levenshtein_distance. cbv zeta.
  destruct (strlen s1 =? 0)%nat eqn:E1.
  { right. apply Nat.eqb_eq in E1. rewrite E1. by rewrite osa_distance_0_l. }
  destruct (strlen s2 =? 0)%nat eqn:E2.
  { right. apply Nat.eqb_eq in E2. rewrite E2. by rewrite osa_distance_0_r. }
  destruct (malloc h) as [ok h1]. destruct ok; simpl; [|by left].
  destruct (alloc_rows (strlen s1 + 1) (strlen s2 + 1) h1) as [[dp|] h2] eqn:E;
    simpl; [|by left].
  right. apply fill_table_correct. by eapply alloc_rows_shape.
Qed.

Lemma distance_alloc_ok s1 s2 h :
  allocations_succeed (strlen s1 + 2) h = true →
  fst (damerau_levenshtein_distance s1 s2 h)
  = osa_distance s1 s2 (strlen s1) (strlen s2).
Proof.
  intros H. unfold damerau_levenshtein_distance. cbv zeta.
  destruct (strlen s1 =? 0)%nat eqn:E1.
  { apply Nat.eqb_eq in E1. rewrite E1. by rewrite osa_distance_0_l. }
  destruct (strlen s2 =? 0)%nat eqn:E2.
  { apply Nat.eqb_eq in E2. rewrite E2. by rewrite osa_distance_0_r. }
  replace (strlen s1 + 2)%nat with (S (strlen s1 + 1)) in H by lia.
  apply allocations_succeed_S in H as (h1 & -> & H1). simpl.
  destruct (alloc_rows_succeed _ (strlen s2 + 1) _ H1) as (dp & h2 & E).
  rewrite E. simpl. apply fill_table_correct. by eapply alloc_rows_shape.
Qed.

Lemma osa_distance_sym a b : ∀ n i j,
  (i + j < n)%nat → osa_distance a b i j = osa_distance b a j i.
Proof.
  induction n as [|n IH]; intros i j Hn; [lia|].
  destruct (decide (i = 0%nat)) as [->|Hi].
  { by rewrite osa_distance_0_l, osa_distance_0_r. }
  destruct (decide (j = 0%nat)) as [->|Hj].
  { by rewrite osa_distance_0_l, osa_distance_0_r. }
  rewrite (osa_distance_step a b i j), (osa_distance_step b a j i) by lia.
  cbv zeta.
  rewrite (IH (i - 1)%nat j), (IH i (j - 1)%nat),
    (IH (i - 1)%nat (j - 1)%nat) by lia.
  rewrite (same_char_sym (char_at b (j - 1)) (char_at a (i - 1))).
  rewrite (same_char_sym (char_at b (j - 1)) (char_at a (i - 2))).
  rewrite (same_char_sym (char_at b (j - 2)) (char_at a (i - 1))).
  destruct (1 <? i)%nat eqn:Ei, (1 <? j)%nat eqn:Ej; simpl;
    try (repeat case_match; lia).
  apply Nat.ltb_lt in Ei, Ej.
  rewrite (IH (i - 2)%nat (j - 2)%nat) by lia.
  destruct (same_char (char_at a (i - 1)) (char_at b (j - 2))),
    (same_char (char_at a (i - 2)) (char_at b (j - 1))),
    (same_char (char_at a (i - 1)) (char_at b (j - 1))); simpl; lia.
Qed.

Lemma osa_distance_diag s : ∀ i, osa_distance s s i i = 0.
Proof.
  induction i as [i IH] using lt_wf_ind.
  destruct (decide (i = 0%nat)) as [->|Hi]; [done|].
  rewrite osa_distance_step by lia. cbv zeta.
  rewrite same_char_refl, (IH (i - 1)%nat) by lia.
  pose proof (osa_distance_nonneg s s (i - 1) i).
  pose proof (osa_distance_nonneg s s i (i - 1)).
  pose proof (osa_distance_nonneg s s (i - 2) (i - 2)).
  repeat case_match; lia.
Qed.

(** [C1] Whenever the allocations of the table succeed, the distance
    function returns the value of the optimal-string-alignment recurrence
    ([dp[i][0] = i], [dp[0][j] = j], minimum of deletion, insertion,
    substitution and adjacent transposition) at the full lengths; in
    particular the distance from or to the empty string is the length of
    the other string, and the distance of a string to itself is 0. *)
Theorem damerau_levenshtein_distance_is_osa (a b : cstring) (h : heap) :
  allocations_succeed (strlen a + 2) h = true →
  fst (damerau_levenshtein_distance a b h)
    = osa_distance a b (strlen a) (strlen b)
  ∧ fst (damerau_levenshtein_distance [] b h) = Z.of_nat (strlen b)
  ∧ fst (damerau_levenshtein_distance a [] h) = Z.of_nat (strlen a)
  ∧ fst (damerau_levenshtein_distance a a h) = 0.
Proof.
  intros H. split; [by apply distance_alloc_ok|].
  split; [done|]. split.
  - unfold damerau_levenshtein_distance. cbv zeta.
    destruct (strlen a =? 0)%nat eqn:E; [|done].
    apply Nat.eqb_eq in E. by rewrite E.
  - rewrite distance_alloc_ok by done. apply osa_distance_diag.
Qed.

Lemma damerau_levenshtein_distance_is_osa_witness :
  fst (damerau_levenshtein_distance (str "nayway") (str "anyway") [])
    = osa_distance (str "nayway") (str "anyway") 6 6
  ∧ fst (damerau_levenshtein_distance [] (str "anyway") []) = 6
  ∧ fst (damerau_levenshtein_distance (str "nayway") [] []) = 6
  ∧ fst (damerau_levenshtein_distance (str "nayway") (str "nayway") []) = 0.
Proof.
  apply (damerau_levenshtein_distance_is_osa (str "nayway") (str "anyway") []).
  reflexivity.
Defined.

(** [C9] Whenever the allocations succeed in both calls, the distance is
    symmetric in its two arguments. *)
Theorem damerau_levenshtein_distance_symmetric (a b : cstring) (h1 h2 : heap) :
  allocations_succeed (strlen a + 2) h1 = true →
  allocations_succeed (strlen b + 2) h2 = true →
  fst (damerau_levenshtein_distance a b h1)
  = fst (damerau_levenshtein_distance b a h2).
Proof.
  intros H1 H2. rewrite !distance_alloc_ok by done.
  apply (osa_distance_sym a b (S (strlen a + strlen b))). lia.
Qed.

Lemma damerau_levenshtein_distance_symmetric_witness :
  fst (damerau_levenshtein_distance (str "kitten") (str "sitting") [true])
  = fst (damerau_levenshtein_distance (str "sitting") (str "kitten") []).
Proof.
  apply damerau_levenshtein_distance_symmetric; reflexivity.
Defined.

(** * The ranking order *)

Lemma char_eqb_eq c1 c2 : char_eqb c1 c2 = true ↔ c1 = c2.
Proof. apply Ascii.eqb_eq. Qed.

Lemma uchar_inj c1 c2 : uchar c1 = uchar c2 → c1 = c2.
Proof.
  unfold uchar. intros H%(inj Z.of_N).
  by rewrite <- (ascii_N_embedding c1), <- (ascii_N_embedding c2), H.
Qed.

Lemma strcmp_range s1 : ∀ s2, -1 <= strcmp s1 s2 <= 1.
Proof.
  induction s1 as [|c1 t1 IH]; intros [|c2 t2]; simpl; try lia.
  repeat case_match; try lia. apply IH.
Qed.

Lemma strcmp_eq s1 : ∀ s2, strcmp s1 s2 = 0 ↔ s1 = s2.
Proof.
  induction s1 as [|c1 t1 IH]; intros [|c2 t2]; simpl; try done.
  destruct (char_eqb c1 c2) eqn:E.
  - apply char_eqb_eq in E as ->. rewrite IH.
    split; [by intros -> | by intros [= ->]].
  - assert (c1 ≠ c2) by (intros ->; unfold char_eqb in E;
                         by rewrite Ascii.eqb_refl in E).
    split; [by case_match | by intros [= ? ?]].
Qed.

(** [strcmp] decides the lexicographic order. *)
Lemma strcmp_lex_le s1 : ∀ s2, strcmp s1 s2 <= 0 ↔ lex_le s1 s2.
Proof.
  induction s1 as [|c1 t1 IH]; intros [|c2 t2]; simpl.
  - split; [intros _; constructor | done].
  - split; [intros _; constructor | done].
  - split; [lia | inversion 1].
  - destruct (char_eqb c1 c2) eqn:E.
    + apply char_eqb_eq in E as ->. rewrite IH. split.
      * by constructor.
      * inversion 1; subst; [lia | done].
    + apply Ascii.eqb_neq in E.
      destruct (Z.ltb_spec (uchar c1) (uchar c2)); split; try lia.
      * intros _. by constructor.
      * inversion 1; subst; [lia | done].
Qed.

Lemma strcmp_swap s1 : ∀ s2, strcmp s2 s1 = - strcmp s1 s2.
Proof.
  induction s1 as [|c1 t1 IH]; intros [|c2 t2]; simpl; try done.
  unfold char_eqb. rewrite (Ascii.eqb_sym c2 c1).
  destruct (Ascii.eqb c1 c2) eqn:E; [apply IH|].
  apply Ascii.eqb_neq in E.
  assert (uchar c1 ≠ uchar c2) by (intros ?%uchar_inj; done).
  destruct (Z.ltb_spec (uchar c1) (uchar c2)),
    (Z.ltb_spec (uchar c2) (uchar c1)); lia.
Qed.

Lemma strcmp_trans s1 : ∀ s2 s3,
  strcmp s1 s2 <= 0 → strcmp s2 s3 <= 0 → strcmp s1 s3 <= 0.
Proof.
  induction s1 as [|c1 t1 IH]; intros [|c2 t2] [|c3 t3]; simpl; try lia.
  unfold char_eqb.
  destruct (Ascii.eqb c1 c2) eqn:E12; destruct (Ascii.eqb c2 c3) eqn:E23;
    destruct (Ascii.eqb c1 c3) eqn:E13;
    rewrite ?Ascii.eqb_eq, ?Ascii.eqb_neq in *; subst; try done;
    try apply IH;
    repeat match goal with
           | |- context [(?x <? ?y)] => destruct (Z.ltb_spec x y)
           end; try lia.
Qed.

Lemma ranks_before_le a b : ranks_before a b = true → ranked_le a b.
Proof.
  unfold ranks_before, ranked_le.
  intros [H|[H1 H2]%andb_prop]%orb_prop; [left | right]; lia.
Qed.

Lemma not_ranks_before_le a b : ranks_before b a = false → ranked_le a b.
Proof.
  unfold ranks_before, ranked_le.
  intros [H1 H2]%orb_false_elim.
  pose proof (strcmp_swap (word a) (word b)).
  destruct (decide (dist a = dist b)) as [Heq|]; [|left; lia].
  right. split; [done|].
  rewrite Heq, Z.eqb_refl in H2. simpl in H2. lia.
Qed.

Lemma ranked_le_trans a b c : ranked_le a b → ranked_le b c → ranked_le a c.
Proof.
  unfold ranked_le. intros [H1|[H1 H1']] [H2|[H2 H2']]; try (left; lia).
  right. split; [lia|]. by eapply strcmp_trans.
Qed.

(** * The exchange sort *)

Lemma exchange_inj i j : Inj eq eq (exchange i j).
Proof. intros x y. unfold exchange. repeat case_decide; lia. Qed.

(** The entries after an exchange of positions [i] and [j]. *)
Lemma lookup_exchange (s : list Suggestion) i j si sj k :
  i ≠ j → s !! i = Some si → s !! j = Some sj →
  <[j := si]> (<[i := sj]> s) !! k = s !! exchange i j k.
Proof.
  intros Hne Hi Hj. unfold exchange.
  pose proof (lookup_lt_Some _ _ _ Hi). pose proof (lookup_lt_Some _ _ _ Hj).
  destruct (decide (k = i)) as [->|Hki].
  - rewrite list_lookup_insert_ne by done.
    rewrite list_lookup_insert_eq by done. done.
  - destruct (decide (k = j)) as [->|Hkj].
    + rewrite list_lookup_insert_eq by (rewrite length_insert; done). done.
    + rewrite !list_lookup_insert_ne by done. done.
Qed.

Lemma sort_step_length i j s : length (sort_step i j s) = length s.
Proof.
  unfold sort_step. repeat case_match; rewrite ?length_insert; done.
Qed.

Lemma sort_step_take count i j s :
  (i < j < count)%nat → take count (sort_step i j s) ≡ₚ take count s.
Proof.
  intros Hij. unfold sort_step.
  destruct (s !! i) as [si|] eqn:Hi; [|done].
  destruct (s !! j) as [sj|] eqn:Hj; [|done].
  destruct (ranks_before sj si); [|done].
  rewrite !take_insert_lt by lia.
  apply Permutation_inj. split; [by rewrite !length_insert|].
  exists (exchange i j). split; [apply exchange_inj|].
  intros k. apply lookup_exchange; [lia | |].
  - rewrite lookup_take_lt by lia. done.
  - rewrite lookup_take_lt by lia. done.
Qed.

Lemma sort_step_inv count i j s :
  (i < j < count)%nat →
  prefix_ranked count i s → least_so_far i j s →
  prefix_ranked count i (sort_step i j s)
  ∧ least_so_far i (S j) (sort_step i j s).
Proof.
  intros Hij HA HB. unfold sort_step.
  destruct (s !! i) as [si|] eqn:Hi.
  2:{ split; [done|]. intros q a b Hq Ha. congruence. }
  destruct (s !! j) as [sj|] eqn:Hj.
  2:{ split; [done|]. intros q a b Hq Ha Hb.
      destruct (decide (q = j)) as [->|]; [congruence|].
      eapply HB; [|done..]. lia. }
  destruct (ranks_before sj si) eqn:Hcmp.
  - split.
    + intros p q a b Hpq Hp.
      rewrite !(lookup_exchange s i j si sj) by (done || lia).
      intros Ha Hb. unfold exchange in Ha, Hb.
      rewrite !decide_False in Ha by lia.
      repeat case_decide; subst; (eapply HA; [| |done..]; lia).
    + intros q a b Hq.
      rewrite !(lookup_exchange s i j si sj) by (done || lia).
      unfold exchange. rewrite decide_True by done.
      intros Ha Hb. assert (a = sj) as -> by congruence.
      apply ranks_before_le in Hcmp.
      rewrite decide_False in Hb by lia.
      destruct (decide (q = j)) as [->|Hqj].
      * assert (b = si) as -> by congruence. done.
      * eapply ranked_le_trans; [done|].
        eapply HB; [|done..]. lia.
  - split; [done|].
    intros q a b Hq Ha Hb. assert (a = si) as -> by congruence.
    destruct (decide (q = j)) as [->|Hqj].
    + assert (b = sj) as -> by congruence. by apply not_ranks_before_le.
    + eapply HB; [|done..]. lia.
Qed.

(** The sort leaves the first [count] entries in rank order, as a
    rearrangement of what they were; the length of the buffer is kept. *)
Lemma sort_suggestions_correct s count :
  prefix_ranked count count (sort_suggestions s count)
  ∧ take count (sort_suggestions s count) ≡ₚ take count s
  ∧ length (sort_suggestions s count) = length s.
Proof.
  unfold sort_suggestions.
  pose (P := fun (i : nat) (t : list Suggestion) =>
    prefix_ranked count i t ∧ take count t ≡ₚ take count s
    ∧ length t = length s).
  assert (H : P (0 + (count - 1))%nat
    (for_loop 0 (count - 1)
       (fun i s => for_loop (i + 1) (count - (i + 1))
                     (fun j s => sort_step i j s) s) s)).
  { apply (for_loop_inv P).
    - split; [|done]. intros p q a b _ Hp. lia.
    - intros i t Hi (HA & Hperm & Hlen).
      pose (Q := fun (j : nat) (u : list Suggestion) =>
        prefix_ranked count i u ∧ least_so_far i j u
        ∧ take count u ≡ₚ take count s ∧ length u = length s).
      assert (HQ : Q (i + 1 + (count - (i + 1)))%nat
        (for_loop (i + 1) (count - (i + 1)) (fun j s => sort_step i j s) t)).
      { apply (for_loop_inv Q).
        - split; [done|]. split; [|done]. intros q a b Hq. lia.
        - intros j u Hj (HA' & HB' & Hperm' & Hlen').
          destruct (sort_step_inv count i j u) as [HA2 HB2]; [lia|done..|].
          split; [done|]. split; [done|]. split.
          + rewrite sort_step_take by lia. done.
          + by rewrite sort_step_length. }
      destruct HQ as (HA' & HB' & Hperm' & Hlen').
      split; [|done].
      intros p q a b Hpq Hp. destruct (decide (p = i)) as [->|Hpi].
      + apply HB'. lia.
      + apply HA'; lia. }
  destruct H as (HA & Hperm & Hlen). split; [|done].
  intros p q a b Hpq _. apply HA; lia.
Qed.

(** * The scan *)

Lemma wrap_int_small z : INT_MIN <= z <= INT_MAX → wrap_int z = z.
Proof.
  unfold INT_MIN, INT_MAX, wrap_int. intros H.
  rewrite Z.mod_small; lia.
Qed.

Section Scan.
Variable lower_word : cstring.
Variables tolerance misspelled_word_len length_tolerance : Z.

Local Abbreviation scan' :=
  (scan lower_word tolerance misspelled_word_len length_tolerance).
Local Abbreviation qualifying' :=
  (qualifying lower_word tolerance misspelled_word_len length_tolerance).

(** Every accepted candidate is a store entry that passes the length
    filters, with its distance to the query, between 0 and the
    tolerance. *)
Lemma qualifying_accepts ws : ∀ h s,
  s ∈ qualifying' ws h →
  word s ∈ ws
  ∧ length_filter misspelled_word_len length_tolerance (word s) = true
  ∧ 0 <= dist s <= tolerance
  ∧ dist s = osa_distance lower_word (word s)
               (strlen lower_word) (strlen (word s)).
Proof.
  induction ws as [|w ws IH]; intros h s; simpl; [by intros ?%elem_of_nil|].
  destruct (length_filter misspelled_word_len length_tolerance w) eqn:Hf;
    simpl.
  2:{ intros Hs. destruct (IH _ _ Hs) as (? & ? & ? & ?).
      split; [by right | done]. }
  pose proof (distance_cases lower_word w h) as Hd.
  destruct (damerau_levenshtein_distance lower_word w h) as [d h1].
  simpl in Hd.
  destruct ((0 <=? d) && (d <=? tolerance)) eqn:Hacc.
  - apply andb_prop in Hacc as [H0 H1].
    intros [->|Hs]%elem_of_cons; simpl.
    + split; [by left|]. split; [done|]. split; lia.
    + destruct (IH _ _ Hs) as (? & ? & ? & ?). split; [by right | done].
  - intros Hs. destruct (IH _ _ Hs) as (? & ? & ? & ?).
    split; [by right | done].
Qed.

(** The scan appends the accepted candidates to the buffer, in store
    order, until [MAX_TEMP_SUGGESTIONS] entries are used. *)
Lemma scan_spec ws : ∀ h buf count,
  (count ≤ MAX_TEMP_SUGGESTIONS)%nat →
  (MAX_TEMP_SUGGESTIONS ≤ length buf)%nat →
  ∃ h' buf',
    let acc := take (MAX_TEMP_SUGGESTIONS - count) (qualifying' ws h) in
    scan' ws h buf count = (h', buf', (count + length acc)%nat)
    ∧ length buf' = length buf
    ∧ take (count + length acc) buf'
      = take count buf ++ map stored_entry acc.
Proof.
  induction ws as [|w ws IH]; intros h buf count Hc Hb.
  { exists h, buf. simpl. rewrite take_nil. simpl.
    rewrite Nat.add_0_r, app_nil_r. done. }
  cbn [scan qualifying].
  destruct (length_filter misspelled_word_len length_tolerance w);
    cbn [negb]; [|by apply IH].
  destruct (damerau_levenshtein_distance lower_word w h) as [d h1].
  destruct ((0 <=? d) && (d <=? tolerance)); [|by apply IH].
  destruct (Nat.ltb_spec count MAX_TEMP_SUGGESTIONS) as [Hlt|Hge].
  - destruct (IH h1 (<[count := {| word := strncpy w (MAX_WORD_LEN - 1);
                                     dist := d |}]> buf) (S count))
      as (h' & buf' & Hscan & Hlen & Htake);
      [lia | by rewrite length_insert |].
    exists h', buf'. cbv zeta in *.
    replace (MAX_TEMP_SUGGESTIONS - count)%nat
      with (S (MAX_TEMP_SUGGESTIONS - S count)) by lia.
    rewrite firstn_cons. revert Hscan Htake.
    generalize (take (MAX_TEMP_SUGGESTIONS - S count) (qualifying' ws h1)).
    intros acc Hscan Htake.
    replace (count + length ({| word := w; dist := d |} :: acc))%nat
      with (S count + length acc)%nat by (simpl; lia).
    split; [done|]. split; [by rewrite Hlen, length_insert|].
    rewrite Htake. rewrite map_cons. unfold stored_entry at 2. simpl word.
    simpl dist.
    rewrite (take_S_r _ _ {| word := strncpy w (MAX_WORD_LEN - 1);
                             dist := d |})
      by (apply list_lookup_insert_eq; lia).
    rewrite take_insert_ge by lia. by rewrite <- app_assoc.
  - exists h1, buf.
    replace (MAX_TEMP_SUGGESTIONS - count)%nat with 0%nat by lia.
    simpl. rewrite Nat.add_0_r, app_nil_r. done.
Qed.
End Scan.

(** * [get_suggestions] *)

Lemma store_ok_words g :
  store_ok g = true →
  Forall (fun w => (strlen w < MAX_WORD_LEN)%nat) (store_words g).
Proof.
  unfold store_ok, store_words. destruct (dictionary g) as [arr|]; [|done].
  intros [_ H]%andb_prop. unfold words_fit in H. apply Forall_take.
  apply Forall_forall. intros w Hw.
  rewrite forallb_forall in H. apply Nat.ltb_lt, H. by apply list_elem_of_In.
Qed.

Lemma stored_entry_fits s :
  (strlen (word s) < MAX_WORD_LEN)%nat → stored_entry s = s.
Proof.
  intros H. destruct s as [w d]. unfold stored_entry, strncpy. simpl in *.
  rewrite take_ge; [done | unfold strlen, MAX_WORD_LEN in *; lia].
Qed.

Section GetSuggestions.
Variable g : globals.
Variable query : cstring.
Variables tolerance misspelled_word_len length_tolerance : Z.
Variable suggestions : list Suggestion.
Variable h : heap.

Local Abbreviation result :=
  (get_suggestions g query tolerance misspelled_word_len length_tolerance
     suggestions h).
Local Abbreviation accepted :=
  (qualifying (lower_copy query) tolerance misspelled_word_len
     length_tolerance (store_words g) h).

(** The returned entries are in rank order. *)
Lemma returned_ranked i j a b :
  (i < j)%nat → returned result !! i = Some a → returned result !! j = Some b →
  ranked_le a b.
Proof.
  unfold returned, get_suggestions.
  destruct (dictionary g) as [arr|];
    [|simpl; intros _ [_ ?]%lookup_take_Some; lia].
  destruct (dictionary_count g =? 0)%nat;
    [simpl; intros _ [_ ?]%lookup_take_Some; lia|].
  destruct (scan _ _ _ _ _ _ _ _) as [[h' buf'] count']. simpl.
  rewrite Nat2Z.id. intros Hij [Ha Hi]%lookup_take_Some [Hb Hj]%lookup_take_Some.
  destruct (sort_suggestions_correct buf' count') as [Hranked _].
  eapply Hranked; [| |done..]; lia.
Qed.

(** The returned entries are a rearrangement of the first
    [MAX_TEMP_SUGGESTIONS] accepted candidates, and the return value is
    their number. *)
Lemma returned_accepted :
  (MAX_TEMP_SUGGESTIONS ≤ length suggestions)%nat →
  returned result ≡ₚ map stored_entry (take MAX_TEMP_SUGGESTIONS accepted)
  ∧ fst (fst result)
    = Z.of_nat (length (take MAX_TEMP_SUGGESTIONS accepted)).
Proof.
  intros Hbuf. unfold returned, get_suggestions, store_words.
  destruct (dictionary g) as [arr|]; [|done].
  destruct (dictionary_count g =? 0)%nat eqn:E.
  { apply Nat.eqb_eq in E. rewrite E. done. }
  destruct (scan_spec (lower_copy query) tolerance misspelled_word_len
              length_tolerance (take (dictionary_count g) arr) h
              suggestions 0) as (h' & buf' & Hscan & Hlen & Htake);
    [lia | done |].
  cbv zeta in Hscan, Htake. rewrite Nat.sub_0_r in Hscan, Htake.
  simpl in Hscan, Htake. rewrite Hscan. simpl. rewrite Nat2Z.id.
  split; [|done].
  destruct (sort_suggestions_correct buf'
              (length (take MAX_TEMP_SUGGESTIONS
                 (qualifying (lower_copy query) tolerance
                    misspelled_word_len length_tolerance
                    (take (dictionary_count g) arr) h))))
    as (_ & Hperm & _).
  rewrite Hperm, Htake. done.
Qed.

(** With a well-formed store nothing is truncated on the way to the
    buffer. *)
Lemma returned_accepted_ok :
  store_ok g = true →
  (MAX_TEMP_SUGGESTIONS ≤ length suggestions)%nat →
  returned result ≡ₚ take MAX_TEMP_SUGGESTIONS accepted.
Proof.
  intros Hok Hbuf. destruct (returned_accepted Hbuf) as [-> _].
  rewrite <- (map_id (take MAX_TEMP_SUGGESTIONS accepted)) at 2.
  erewrite map_ext_in; [done|].
  intros s Hs%list_elem_of_In%elem_of_take.
  destruct Hs as [i [Hs _]]. apply list_elem_of_lookup_2 in Hs.
  apply qualifying_accepts in Hs as [Hw _].
  apply stored_entry_fits.
  pose proof (store_ok_words g Hok) as Hall.
  rewrite Forall_forall in Hall. by apply Hall.
Qed.

Lemma returned_is_accepted s :
  store_ok g = true →
  (MAX_TEMP_SUGGESTIONS ≤ length suggestions)%nat →
  s ∈ returned result → s ∈ accepted.
Proof.
  intros Hok Hbuf Hs. rewrite (returned_accepted_ok Hok Hbuf) in Hs.
  apply elem_of_take in Hs as [i [Hs _]]. by eapply list_elem_of_lookup_2.
Qed.
End GetSuggestions.

(** * Properties of the suggestions *)

(** [C2] Every suggestion [(w, d)] returned by [get_suggestions] has
    [d <= tolerance], [len(w) >= misspelled_word_len] and
    [abs(len(w) - misspelled_word_len) <= length_tolerance].  The store is
    well formed, the caller's buffer has room for [MAX_TEMP_SUGGESTIONS]
    entries, and the stated length is not so negative that the [int]
    subtraction of line 227 overflows. *)
Theorem suggestions_within_bounds (g : globals) (query : cstring)
    (tolerance misspelled_word_len length_tolerance : Z)
    (suggestions : list Suggestion) (h : heap) (s : Suggestion) :
  store_ok g = true →
  (MAX_TEMP_SUGGESTIONS ≤ length suggestions)%nat →
  INT_MIN + Z.of_nat MAX_WORD_LEN <= misspelled_word_len →
  s ∈ returned (get_suggestions g query tolerance misspelled_word_len
                  length_tolerance suggestions h) →
  dist s <= tolerance
  ∧ misspelled_word_len <= Z.of_nat (strlen (word s))
  ∧ Z.abs (Z.of_nat (strlen (word s)) - misspelled_word_len)
    <= length_tolerance.
Proof.
  intros Hok Hbuf Hm Hs.
  apply returned_is_accepted in Hs; [|done..].
  apply qualifying_accepts in Hs as (Hw & Hf & Hd & _).
  pose proof (store_ok_words g Hok) as Hall.
  rewrite Forall_forall in Hall. apply Hall in Hw.
  unfold length_filter in Hf. cbv zeta in Hf.
  destruct (Z.ltb_spec (Z.of_nat (strlen (word s))) misspelled_word_len);
    [done|].
  destruct (Z.gtb_spec
              (c_abs (wrap_int (Z.of_nat (strlen (word s))
                                - misspelled_word_len)))
              length_tolerance) as [|Habs]; [done|].
  unfold c_abs in Habs. unfold INT_MIN, MAX_WORD_LEN in *.
  rewrite (wrap_int_small (_ - _)) in Habs by (unfold INT_MIN, INT_MAX; lia).
  rewrite wrap_int_small in Habs by (unfold INT_MIN, INT_MAX; lia).
  lia.
Qed.

Lemma suggestions_within_bounds_witness :
  1 <= 3 ∧ 6 <= Z.of_nat (strlen (str "anyway"))
  ∧ Z.abs (Z.of_nat (strlen (str "anyway")) - 6) <= 2.
Proof.
  apply (suggestions_within_bounds demo_store (str "nayway") 3 6 2
           fresh_buffer [] {| word := str "anyway"; dist := 1 |}).
  - reflexivity.
  - unfold fresh_buffer. rewrite length_replicate. reflexivity.
  - vm_compute. discriminate.
  - vm_compute. apply list_elem_of_here.
Defined.

(** [C3] The suggestions returned by [get_suggestions] are ordered by
    ascending distance and, at equal distance, by ascending word: for
    positions [i < j], either [d_i < d_j], or [d_i = d_j] and
    [w_i <= w_j] lexicographically. *)
Theorem suggestions_ranked (g : globals) (query : cstring)
    (tolerance misspelled_word_len length_tolerance : Z)
    (suggestions : list Suggestion) (h : heap) (i j : nat) (a b : Suggestion) :
  (i < j)%nat →
  returned (get_suggestions g query tolerance misspelled_word_len
              length_tolerance suggestions h) !! i = Some a →
  returned (get_suggestions g query tolerance misspelled_word_len
              length_tolerance suggestions h) !! j = Some b →
  dist a < dist b ∨ (dist a = dist b ∧ lex_le (word a) (word b)).
Proof.
  intros Hij Ha Hb.
  destruct (returned_ranked _ _ _ _ _ _ _ _ _ _ _ Hij Ha Hb) as [?|[? Hle]];
    [by left | right].
  split; [done | by apply strcmp_lex_le].
Qed.

Lemma suggestions_ranked_witness :
  1 < 3 ∨ (1 = 3 ∧ lex_le (str "anyway") (str "airway")).
Proof.
  apply (suggestions_ranked demo_store (str "nayway") 3 6 2 fresh_buffer []
           0 1 {| word := str "anyway"; dist := 1 |}
               {| word := str "airway"; dist := 3 |}).
  - apply Nat.lt_0_1.
  - vm_compute. reflexivity.
  - vm_compute. reflexivity.
Defined.

(** [C4] [get_suggestions] returns at most [MAX_TEMP_SUGGESTIONS]
    suggestions, and they are, as a collection, the first
    [MAX_TEMP_SUGGESTIONS] accepted candidates in store order: when more
    candidates qualify exactly [MAX_TEMP_SUGGESTIONS] are returned and the
    later ones are dropped. *)
Theorem suggestions_capped (g : globals) (query : cstring)
    (tolerance misspelled_word_len length_tolerance : Z)
    (suggestions : list Suggestion) (h : heap) :
  store_ok g = true →
  (MAX_TEMP_SUGGESTIONS ≤ length suggestions)%nat →
  let r := get_suggestions g query tolerance misspelled_word_len
             length_tolerance suggestions h in
  let accepted := qualifying (lower_copy query) tolerance misspelled_word_len
                    length_tolerance (store_words g) h in
  (length (returned r) ≤ MAX_TEMP_SUGGESTIONS)%nat
  ∧ fst (fst r) = Z.of_nat (length (returned r))
  ∧ returned r ≡ₚ take MAX_TEMP_SUGGESTIONS accepted
  ∧ ((MAX_TEMP_SUGGESTIONS < length accepted)%nat →
     length (returned r) = MAX_TEMP_SUGGESTIONS).
Proof.
  intros Hok Hbuf r accepted.
  pose proof (returned_accepted_ok g query tolerance misspelled_word_len
                length_tolerance suggestions h Hok Hbuf) as Hperm.
  destruct (returned_accepted g query tolerance misspelled_word_len
              length_tolerance suggestions h Hbuf) as [_ Hcount].
  fold r in Hperm, Hcount. fold accepted in Hperm, Hcount.
  pose proof (Permutation_length Hperm) as Hlen.
  rewrite length_take in Hlen.
  split; [lia|]. split; [by rewrite Hcount, length_take, Hlen|].
  split; [done | lia].
Qed.

Lemma suggestions_capped_witness :
  let r := get_suggestions crowded_store (str "ab") 1 2 0 fresh_buffer [] in
  let accepted := qualifying (lower_copy (str "ab")) 1 2 0
                    (store_words crowded_store) [] in
  (length (returned r) ≤ MAX_TEMP_SUGGESTIONS)%nat
  ∧ fst (fst r) = Z.of_nat (length (returned r))
  ∧ returned r ≡ₚ take MAX_TEMP_SUGGESTIONS accepted
  ∧ ((MAX_TEMP_SUGGESTIONS < length accepted)%nat →
     length (returned r) = MAX_TEMP_SUGGESTIONS).
Proof.
  apply (suggestions_capped crowded_store (str "ab") 1 2 0 fresh_buffer []).
  - vm_compute. reflexivity.
  - unfold fresh_buffer. rewrite length_replicate. reflexivity.
Defined.

(** [C7] When the distance computation for a candidate returns the
    negative allocation-failure sentinel, the scan goes on with the
    remaining candidates, buffer and count unchanged; and no returned
    suggestion carries a negative distance. *)
Theorem allocation_failure_skips_candidate (lower_word : cstring)
    (tolerance misspelled_word_len length_tolerance : Z)
    (dict_word : DictionaryWord) (rest : list DictionaryWord)
    (h h' : heap) (d : Z) (buf : list Suggestion) (count : nat)
    (g : globals) (query : cstring) (suggestions : list Suggestion)
    (h0 : heap) :
  length_filter misspelled_word_len length_tolerance dict_word = true →
  damerau_levenshtein_distance lower_word dict_word h = (d, h') →
  d < 0 →
  (MAX_TEMP_SUGGESTIONS ≤ length suggestions)%nat →
  scan lower_word tolerance misspelled_word_len length_tolerance
    (dict_word :: rest) h buf count
  = scan lower_word tolerance misspelled_word_len length_tolerance
      rest h' buf count
  ∧ ∀ s, s ∈ returned (get_suggestions g query tolerance misspelled_word_len
                         length_tolerance suggestions h0) →
         0 <= dist s.
Proof.
  intros Hf Hd Hneg Hbuf. split.
  - cbn [scan]. rewrite Hf, Hd. cbn [negb].
    destruct (Z.leb_spec 0 d); [lia | done].
  - intros s Hs.
    destruct (returned_accepted g query tolerance misspelled_word_len
                length_tolerance suggestions h0 Hbuf) as [Hperm _].
    rewrite Hperm in Hs. apply list_elem_of_fmap in Hs as (q & -> & Hq).
    apply elem_of_take in Hq as [i [Hq _]].
    apply list_elem_of_lookup_2 in Hq.
    apply qualifying_accepts in Hq as (_ & _ & Hd' & _). simpl. lia.
Qed.

Lemma allocation_failure_skips_candidate_witness :
  scan (str "ab") 2 2 0 [str "ba"; str "ab"] [false] fresh_buffer 0
  = scan (str "ab") 2 2 0 [str "ab"] [] fresh_buffer 0
  ∧ ∀ s, s ∈ returned (get_suggestions (store_of [str "ba"; str "ab"])
                         (str "ab") 2 2 0 fresh_buffer [false]) →
         0 <= dist s.
Proof.
  apply (allocation_failure_skips_candidate (str "ab") 2 2 0 (str "ba")
           [str "ab"] [false] [] (-1) fresh_buffer 0
           (store_of [str "ba"; str "ab"]) (str "ab") fresh_buffer [false]).
  - reflexivity.
  - reflexivity.
  - reflexivity.
  - unfold fresh_buffer. rewrite length_replicate. reflexivity.
Defined.

(** [C10] The scan filters on the stated length [misspelled_word_len], not
    on the length of the query: every returned suggestion passes
    [length_filter] for the stated length, so is at least that long, and
    carries the distance computed from the query itself; when the stated
    length differs from the query's own, a returned word can be shorter
    than the query (first example) or longer (second example), at a
    length tolerance of 0. *)
Theorem length_filters_use_stated_length (g : globals) (query : cstring)
    (tolerance misspelled_word_len length_tolerance : Z)
    (suggestions : list Suggestion) (h : heap) (s : Suggestion) :
  store_ok g = true →
  (MAX_TEMP_SUGGESTIONS ≤ length suggestions)%nat →
  s ∈ returned (get_suggestions g query tolerance misspelled_word_len
                  length_tolerance suggestions h) →
  (length_filter misspelled_word_len length_tolerance (word s) = true
   ∧ misspelled_word_len <= Z.of_nat (strlen (word s))
   ∧ dist s = osa_distance (lower_copy query) (word s)
                (strlen (lower_copy query)) (strlen (word s)))
  ∧ (∃ shorter,
       shorter ∈ returned (get_suggestions (store_of [str "any"])
                             (str "nayway") 4 3 0 fresh_buffer [])
       ∧ (strlen (word shorter) < strlen (str "nayway"))%nat)
  ∧ (∃ longer,
       longer ∈ returned (get_suggestions (store_of [str "cater"])
                            (str "cat") 2 5 0 fresh_buffer [])
       ∧ (strlen (str "cat") < strlen (word longer))%nat).
Proof.
  intros Hok Hbuf Hs. split; [|split].
  - apply returned_is_accepted in Hs; [|done..].
    apply qualifying_accepts in Hs as (_ & Hf & _ & Hd).
    split; [done|]. split; [|done].
    unfold length_filter in Hf. cbv zeta in Hf.
    destruct (Z.ltb_spec (Z.of_nat (strlen (word s))) misspelled_word_len);
      [done | lia].
  - exists {| word := str "any"; dist := 4 |}. split.
    + vm_compute. apply list_elem_of_here.
    + vm_compute. lia.
  - exists {| word := str "cater"; dist := 2 |}. split.
    + vm_compute. apply list_elem_of_here.
    + vm_compute. lia.
Qed.

Lemma length_filters_use_stated_length_witness :
  (length_filter 3 0 (str "any") = true
   ∧ 3 <= Z.of_nat (strlen (str "any"))
   ∧ 4 = osa_distance (lower_copy (str "nayway")) (str "any")
           (strlen (lower_copy (str "nayway"))) (strlen (str "any")))
  ∧ (∃ shorter,
       shorter ∈ returned (get_suggestions (store_of [str "any"])
                             (str "nayway") 4 3 0 fresh_buffer [])
       ∧ (strlen (word shorter) < strlen (str "nayway"))%nat)
  ∧ (∃ longer,
       longer ∈ returned (get_suggestions (store_of [str "cater"])
                            (str "cat") 2 5 0 fresh_buffer [])
       ∧ (strlen (str "cat") < strlen (word longer))%nat).
Proof.
  apply (length_filters_use_stated_length (store_of [str "any"])
           (str "nayway") 4 3 0 fresh_buffer []
           {| word := str "any"; dist := 4 |}).
  - reflexivity.
  - unfold fresh_buffer. rewrite length_replicate. reflexivity.
  - vm_compute. apply list_elem_of_here.
Defined.

(** * Membership *)

Lemma find_word_spec lower_word ws :
  (find_word lower_word ws = 1 ↔ lower_word ∈ ws)
  ∧ (find_word lower_word ws = 1 ∨ find_word lower_word ws = 0).
Proof.
  induction ws as [|w ws [IH1 IH2]]; simpl.
  - split; [|by right]. split; [done | by intros ?%elem_of_nil].
  - destruct (Z.eqb_spec (strcmp lower_word w) 0) as [E|E].
    + apply strcmp_eq in E as ->. split; [|by left].
      split; [intros _; by left | done].
    + split; [|done]. rewrite IH1, elem_of_cons.
      split; [by right|]. intros [->|?]; [|done].
      contradict E. by apply strcmp_eq.
Qed.

(** [C5, amended] [is_word_correct] returns 1 exactly when the query, cut
    to its first [MAX_WORD_LEN - 1] characters and folded to lower case
    (nothing is trimmed), is one of the stored words; otherwise it
    returns 0. *)
Theorem is_word_correct_iff (g : globals) (query : cstring) :
  (is_word_correct g query = 1 ↔ lower_copy query ∈ store_words g)
  ∧ (is_word_correct g query = 1 ∨ is_word_correct g query = 0).
Proof.
  unfold is_word_correct, store_words.
  destruct (dictionary g) as [arr|].
  2:{ split; [|by right]. split; [done | by intros ?%elem_of_nil]. }
  destruct (dictionary_count g =? 0)%nat eqn:E.
  - apply Nat.eqb_eq in E. rewrite E. simpl.
    split; [|by right]. split; [done | by intros ?%elem_of_nil].
  - apply find_word_spec.
Qed.

(** [C5, as stated] fails in both directions.  A query with a trailing
    newline is not trimmed: its trimmed, lower-cased form is stored, yet
    the answer is 0.  A query of [MAX_WORD_LEN] characters is cut to
    [MAX_WORD_LEN - 1]: the answer is 1 although its normalized form is
    not stored. *)
Lemma is_word_correct_counterexample :
  let g := store_of [str "any"; replicate 49 "a"%char] in
  load_dictionary (Some (str "any" ++ [LF] ++ replicate 49 "a"%char ++ [LF]))
    initial_globals [] = (1, g, [])
  ∧ (normalize_spec (str "Any" ++ [LF]) ∈ store_words g
     ∧ is_word_correct g (str "Any" ++ [LF]) = 0)
  ∧ ((normalize_spec (replicate 50 "a"%char) ∉ store_words g)
     ∧ is_word_correct g (replicate 50 "a"%char) = 1).
Proof.
  split; [vm_compute; reflexivity|]. split; split.
  - vm_compute. apply list_elem_of_here.
  - vm_compute. reflexivity.
  - vm_compute. intros H.
    apply elem_of_cons in H as [H|H]; [discriminate|].
    apply list_elem_of_singleton in H. discriminate.
  - vm_compute. reflexivity.
Qed.

(** * Loading *)

Lemma fgets_chars_length room : ∀ file,
  (length (snd (fgets_chars room file)) ≤ length file)%nat
  ∧ (file ≠ [] → (0 < room)%nat →
     (length (snd (fgets_chars room file)) < length file)%nat).
Proof.
  induction room as [|room IH]; intros [|c rest]; simpl;
    try (split; [lia | intros; (done || lia)]).
  destruct (char_eqb c LF); simpl; [split; intros; lia|].
  destruct (IH rest) as [IH1 _].
  destruct (fgets_chars room rest) as [l r]. simpl in *. split; intros; lia.
Qed.

Lemma fgets_Some n file buf rest :
  fgets n file = Some (buf, rest) →
  (1 < n)%nat → (length rest < length file)%nat.
Proof.
  unfold fgets. destruct file as [|c file']; [done|].
  intros [= H] Hn.
  destruct (fgets_chars_length (n - 1) (c :: file')) as [_ Hlt].
  rewrite H in Hlt. simpl in Hlt. simpl. apply Hlt; [done | lia].
Qed.

Lemma read_lines_eof fuel file arr count capacity h :
  fgets MAX_LINE_LEN file = None →
  read_lines fuel file arr count capacity h
  = Some (1, {| dictionary := Some arr; dictionary_count := count;
                dictionary_capacity := capacity |}, h).
Proof. intros H. destruct fuel; cbn [read_lines]; by rewrite H. Qed.

Lemma read_lines_step fuel file buf rest arr count capacity h :
  fgets MAX_LINE_LEN file = Some (buf, rest) →
  read_lines (S fuel) file arr count capacity h
  = let line := normalize_line buf in
    if (strlen line <? MAX_WORD_LEN)%nat then
      if Z.of_nat count >=? capacity then
        let capacity := wrap_int (capacity * 2) in
        let '(ok, h) := malloc h in
        if negb ok then
          Some (0, {| dictionary := None; dictionary_count := 0;
                      dictionary_capacity := 0 |}, h)
        else
          read_lines fuel rest
            (arr ++ [strncpy line (MAX_WORD_LEN - 1)]) (S count) capacity h
      else
        read_lines fuel rest
          (arr ++ [strncpy line (MAX_WORD_LEN - 1)]) (S count) capacity h
    else read_lines fuel rest arr count capacity h.
Proof. intros H. cbn [read_lines]. by rewrite H. Qed.

(** The loop ends within as many iterations as the file has characters,
    and the fuel beyond that does not matter. *)
Lemma read_lines_fuel fuel1 : ∀ fuel2 file arr count capacity h,
  (length file ≤ fuel1)%nat → (length file ≤ fuel2)%nat →
  read_lines fuel1 file arr count capacity h
  = read_lines fuel2 file arr count capacity h
  ∧ is_Some (read_lines fuel1 file arr count capacity h).
Proof.
  induction fuel1 as [|fuel1 IH]; intros fuel2 file arr count capacity h H1 H2.
  - destruct file; [|simpl in H1; lia].
    rewrite !read_lines_eof by done. by split.
  - destruct (fgets MAX_LINE_LEN file) as [[buf rest]|] eqn:E.
    2:{ rewrite !read_lines_eof by done. by split. }
    pose proof (fgets_Some _ _ _ _ E ltac:(unfold MAX_LINE_LEN; lia)) as Hlt.
    destruct fuel2 as [|fuel2]; [lia|].
    rewrite !(read_lines_step _ _ _ _ _ _ _ _ E). cbv zeta.
    destruct (strlen (normalize_line buf) <? MAX_WORD_LEN)%nat;
      [|apply IH; lia].
    destruct (Z.of_nat count >=? capacity); [|apply IH; lia].
    destruct (malloc h) as [ok h1]. destruct ok; simpl; [apply IH; lia|].
    by split.
Qed.

Lemma words_fit_snoc arr line :
  words_fit arr = true →
  words_fit (arr ++ [strncpy line (MAX_WORD_LEN - 1)]) = true.
Proof.
  unfold words_fit. intros H. rewrite forallb_app, H. cbn [forallb andb].
  rewrite andb_true_r. apply Nat.ltb_lt.
  unfold strlen, strncpy. rewrite length_take. unfold MAX_WORD_LEN. lia.
Qed.

(** What the loop returns: 1 with a well-formed store, or 0 with no
    store. *)
Lemma read_lines_result fuel : ∀ file arr count capacity h r g' h',
  read_lines fuel file arr count capacity h = Some (r, g', h') →
  count = length arr → words_fit arr = true →
  store_ok g' = true
  ∧ ((r = 1 ∧ is_Some (dictionary g'))
     ∨ (r = 0 ∧ dictionary g' = None ∧ dictionary_count g' = 0%nat)).
Proof.
  induction fuel as [|fuel IH]; intros file arr count capacity h r g' h' Hr Hc Hw.
  - destruct (fgets MAX_LINE_LEN file) as [[buf rest]|] eqn:E.
    + cbn [read_lines] in Hr. by rewrite E in Hr.
    + rewrite read_lines_eof in Hr by done. simplify_eq.
      split; [|left; by split].
      unfold store_ok. simpl. rewrite Nat.eqb_refl. done.
  - destruct (fgets MAX_LINE_LEN file) as [[buf rest]|] eqn:E.
    2:{ rewrite read_lines_eof in Hr by done. simplify_eq.
        split; [|left; by split].
        unfold store_ok. simpl. rewrite Nat.eqb_refl. done. }
    rewrite (read_lines_step _ _ _ _ _ _ _ _ E) in Hr. cbv zeta in Hr.
    destruct (strlen (normalize_line buf) <? MAX_WORD_LEN)%nat;
      [|by eapply IH].
    assert (Hc' : S count = length (arr ++ [strncpy (normalize_line buf)
                                               (MAX_WORD_LEN - 1)])).
    { rewrite length_app. simpl. lia. }
    pose proof (words_fit_snoc arr (normalize_line buf) Hw) as Hw'.
    destruct (Z.of_nat count >=? capacity); [|by eapply IH].
    destruct (malloc h) as [ok h1]. destruct ok; simpl in Hr; [by eapply IH|].
    simplify_eq. split; [done | right; done].
Qed.

Lemma load_dictionary_result file g h :
  let '(r, g', _) := load_dictionary file g h in
  store_ok g' = true
  ∧ ((r = 1 ∧ is_Some (dictionary g'))
     ∨ (r = 0 ∧ dictionary g' = None ∧ dictionary_count g' = 0%nat)).
Proof.
  unfold load_dictionary. cbv zeta.
  destruct file as [content|]; [|split; [done | right; done]].
  destruct (malloc h) as [ok h1]. destruct ok; simpl;
    [|split; [done | right; done]].
  destruct (read_lines_fuel (length content) (length content) content []
              0 DICTIONARY_SIZE h1) as [_ [[[r g'] h'] Hr]]; [done..|].
  rewrite Hr. by eapply read_lines_result.
Qed.

(** [C8] With no dictionary -- the pointer is NULL, the count is 0, or a
    load has just failed -- [is_word_correct] returns 0 and
    [get_suggestions] returns 0 suggestions, leaving the buffer and the
    allocator as they were; both are total functions of the state, which
    they do not change. *)
Theorem queries_without_dictionary (g : globals) (query : cstring)
    (tolerance misspelled_word_len length_tolerance : Z)
    (suggestions : list Suggestion) (h : heap) :
  no_dictionary g →
  is_word_correct g query = 0
  ∧ get_suggestions g query tolerance misspelled_word_len length_tolerance
      suggestions h = (0, suggestions, h)
  ∧ returned (get_suggestions g query tolerance misspelled_word_len
                length_tolerance suggestions h) = [].
Proof.
  intros Hno.
  assert (dictionary g = None ∨ dictionary_count g = 0%nat) as Hg.
  { destruct Hno as [?|[?|(file & g0 & h0 & h1 & Hload)]]; [by left | by right|].
    pose proof (load_dictionary_result file g0 h0) as Hres.
    rewrite Hload in Hres. destruct Hres as [_ [[? _]|(_ & ? & _)]];
      [done | by left]. }
  assert (get_suggestions g query tolerance misspelled_word_len
            length_tolerance suggestions h = (0, suggestions, h)) as Hs.
  { unfold get_suggestions. destruct Hg as [->| ->]; [done|].
    by destruct (dictionary g). }
  split; [|split; [done | by rewrite Hs]].
  unfold is_word_correct. destruct Hg as [->| ->]; [done|].
  by destruct (dictionary g).
Qed.

Lemma queries_without_dictionary_witness :
  is_word_correct initial_globals (str "nayway") = 0
  ∧ get_suggestions initial_globals (str "nayway") 3 6 2 fresh_buffer []
    = (0, fresh_buffer, [])
  ∧ returned (get_suggestions initial_globals (str "nayway") 3 6 2
                fresh_buffer []) = [].
Proof.
  apply (queries_without_dictionary initial_globals (str "nayway") 3 6 2
           fresh_buffer []).
  right. right. exists None, demo_store, [true], [true]. reflexivity.
Defined.

(** A whole line that fits the line buffer is read by one [fgets]. *)
Lemma fgets_chars_line line : ∀ room post,
  no_newline line = true → (length line < room)%nat →
  fgets_chars room (line ++ LF :: post) = (line ++ [LF], post).
Proof.
  induction line as [|c line IH]; intros room post Hnl Hroom.
  - destruct room; [simpl in Hroom; lia | done].
  - destruct room as [|room]; [simpl in Hroom; lia|].
    simpl in Hnl. apply andb_prop in Hnl as [Hc Hnl].
    apply negb_true_iff in Hc. simpl. rewrite Hc.
    rewrite IH; [done | done | simpl in Hroom; lia].
Qed.

(** Reading from a line start: what follows the text up to a newline does
    not change what [fgets] reads, and the next read starts a line
    again. *)
Lemma fgets_chars_prefix p : ∀ room rest,
  fgets_chars room ((p ++ [LF]) ++ rest)
  = (fst (fgets_chars room (p ++ [LF])),
     snd (fgets_chars room (p ++ [LF])) ++ rest)
  ∧ line_start (snd (fgets_chars room (p ++ [LF]))) = true.
Proof.
  induction p as [|c p IH]; intros room rest.
  - destruct room; simpl; [done|]. done.
  - destruct room as [|room]; simpl.
    { split; [done|]. unfold line_start.
      change (c :: p ++ [LF]) with ((c :: p) ++ [LF]). by rewrite last_snoc. }
    destruct (char_eqb c LF); simpl.
    { split; [done|]. unfold line_start. by rewrite last_snoc. }
    destruct (IH room rest) as [IH1 IH2]. rewrite IH1.
    destruct (fgets_chars room (p ++ [LF])) as [l r]. done.
Qed.

Lemma line_start_cases pre :
  line_start pre = true → pre = [] ∨ ∃ p, pre = p ++ [LF].
Proof.
  unfold line_start. destruct (last pre) as [c|] eqn:E.
  - intros ->%char_eqb_eq. right. by apply last_Some.
  - intros _. left. by apply last_None.
Qed.

(** Loading skips a long line: the loop behaves on the file with the line
    as on the file without it. *)
Lemma read_lines_skip line post :
  no_newline line = true →
  (length line ≤ MAX_LINE_LEN - 2)%nat →
  (MAX_WORD_LEN ≤ strlen (normalize_line (line ++ [LF])))%nat →
  ∀ n pre fuel1 fuel2 arr count capacity h,
    (length pre < n)%nat → line_start pre = true →
    (length (pre ++ line ++ LF :: post) ≤ fuel1)%nat →
    (length (pre ++ post) ≤ fuel2)%nat →
    read_lines fuel1 (pre ++ line ++ LF :: post) arr count capacity h
    = read_lines fuel2 (pre ++ post) arr count capacity h.
Proof.
  intros Hnl Hlen Hlong.
  induction n as [|n IH];
    intros pre fuel1 fuel2 arr count capacity h Hn Hstart H1 H2; [lia|].
  destruct (line_start_cases pre Hstart) as [->|[p ->]].
  - simpl app in *.
    assert (fgets MAX_LINE_LEN (line ++ LF :: post)
            = Some (line ++ [LF], post)) as E.
    { unfold fgets. destruct (line ++ LF :: post) eqn:El.
      - by destruct line.
      - rewrite <- El. f_equal. apply fgets_chars_line; [done|].
        unfold MAX_LINE_LEN in *. lia. }
    destruct fuel1 as [|fuel1];
      [rewrite length_app in H1; simpl in H1; lia|].
    rewrite (read_lines_step _ _ _ _ _ _ _ _ E). cbv zeta.
    destruct (Nat.ltb_spec (strlen (normalize_line (line ++ [LF])))
                MAX_WORD_LEN) as [Hlt|_]; [lia|].
    apply read_lines_fuel; [|done].
    rewrite length_app in H1. simpl in H1. lia.
  - destruct (fgets_chars_prefix p (MAX_LINE_LEN - 1) (line ++ LF :: post))
      as [E1 Hs].
    destruct (fgets_chars_prefix p (MAX_LINE_LEN - 1) post) as [E2 _].
    pose proof (fgets_chars_length (MAX_LINE_LEN - 1) (p ++ [LF])) as [_ Hlt].
    destruct (fgets_chars (MAX_LINE_LEN - 1) (p ++ [LF])) as [buf r] eqn:Ep.
    cbn [fst snd] in E1, E2, Hs, Hlt.
    assert (p ++ [LF] ≠ []) as Hne by (by destruct p).
    specialize (Hlt Hne ltac:(unfold MAX_LINE_LEN; lia)).
    assert (∀ rest, fgets MAX_LINE_LEN ((p ++ [LF]) ++ rest)
                    = Some (fgets_chars (MAX_LINE_LEN - 1)
                              ((p ++ [LF]) ++ rest))) as Hfg.
    { intros rest. unfold fgets. by destruct p. }
    pose proof (Hfg (line ++ LF :: post)) as F1. rewrite E1 in F1.
    pose proof (Hfg post) as F2. rewrite E2 in F2.
    rewrite !length_app in H1. rewrite !length_app in H2.
    rewrite !length_app in Hn. rewrite !length_app in Hlt.
    simpl in H1, H2, Hn, Hlt.
    destruct fuel1 as [|fuel1]; [lia|]. destruct fuel2 as [|fuel2]; [lia|].
    rewrite (read_lines_step _ _ _ _ _ _ _ _ F1).
    rewrite (read_lines_step _ _ _ _ _ _ _ _ F2). cbv zeta.
    assert (∀ arr' count' capacity' h',
      read_lines fuel1 (r ++ line ++ LF :: post) arr' count' capacity' h'
      = read_lines fuel2 (r ++ post) arr' count' capacity' h') as Hrec.
    { intros. apply IH; [lia | done | |];
        rewrite !length_app in *; simpl; lia. }
    destruct (strlen (normalize_line buf) <? MAX_WORD_LEN)%nat; [|apply Hrec].
    destruct (Z.of_nat count >=? capacity); [|apply Hrec].
    destruct (malloc h) as [ok h1]. destruct ok; simpl; [apply Hrec | done].
Qed.

(** [C6, amended] After a successful [load_dictionary] every stored word is
    strictly shorter than [MAX_WORD_LEN] (it may be empty); and a line that
    fits the line buffer (at most [MAX_LINE_LEN - 2] characters before its
    newline) whose normalized length is [MAX_WORD_LEN] or more is discarded
    entirely: loading the file with the line gives what loading the file
    without it gives. *)
Theorem load_dictionary_words_fit (file : option (list ascii))
    (pre line post : list ascii) (g : globals) (h : heap) :
  line_start pre = true →
  no_newline line = true →
  (length line ≤ MAX_LINE_LEN - 2)%nat →
  (MAX_WORD_LEN ≤ strlen (normalize_line (line ++ [LF])))%nat →
  (fst (fst (load_dictionary file g h)) = 1 →
   ∀ w, w ∈ store_words (snd (fst (load_dictionary file g h))) →
        (strlen w < MAX_WORD_LEN)%nat)
  ∧ load_dictionary (Some (pre ++ line ++ LF :: post)) g h
    = load_dictionary (Some (pre ++ post)) g h.
Proof.
  intros Hstart Hnl Hlen Hlong. split.
  - intros _ w Hw.
    pose proof (load_dictionary_result file g h) as Hres.
    destruct (load_dictionary file g h) as [[r g'] h']. simpl in *.
    destruct Hres as [Hok _].
    pose proof (store_ok_words g' Hok) as Hall.
    rewrite Forall_forall in Hall. by apply Hall.
  - unfold load_dictionary. cbv zeta.
    destruct (malloc h) as [ok h1]. destruct ok; simpl; [|done].
    rewrite (read_lines_skip line post Hnl Hlen Hlong (S (length pre)) pre
               (length (pre ++ line ++ LF :: post)) (length (pre ++ post))
               [] 0 DICTIONARY_SIZE h1); [done | lia | done | done | done].
Qed.

Lemma load_dictionary_words_fit_witness :
  (fst (fst (load_dictionary (Some (str "Anyway" ++ [LF])) initial_globals []))
   = 1 →
   ∀ w, w ∈ store_words
              (snd (fst (load_dictionary (Some (str "Anyway" ++ [LF]))
                           initial_globals []))) →
        (strlen w < MAX_WORD_LEN)%nat)
  ∧ load_dictionary
      (Some ((str "any" ++ [LF]) ++ replicate 50 "x"%char
             ++ LF :: str "airway" ++ [LF])) initial_globals []
    = load_dictionary (Some ((str "any" ++ [LF]) ++ str "airway" ++ [LF]))
        initial_globals [].
Proof.
  apply (load_dictionary_words_fit (Some (str "Anyway" ++ [LF]))
           (str "any" ++ [LF]) (replicate 50 "x"%char)
           (str "airway" ++ [LF]) initial_globals []).
  - reflexivity.
  - reflexivity.
  - vm_compute. lia.
  - vm_compute. lia.
Defined.

(** [C6, as stated] fails: a blank line is stored as a word of length 0. *)
Lemma load_dictionary_counterexample :
  let r := load_dictionary (Some (str "any" ++ [LF; LF])) initial_globals [] in
  fst (fst r) = 1
  ∧ ∃ w, w ∈ store_words (snd (fst r)) ∧ ¬ (1 ≤ strlen w)%nat.
Proof.
  split; [reflexivity|]. exists []. split.
  - vm_compute. apply list_elem_of_further, list_elem_of_here.
  - simpl. lia.
Qed.

(** A line longer than the line buffer is read in pieces; the piece before
    the newline is treated as a line of its own. *)
Example long_line_tail_stored :
  load_dictionary (Some (replicate 255 "a"%char ++ str "cat" ++ [LF]))
    initial_globals []
  = (1, store_of [str "cat"], []).
Proof. vm_compute. reflexivity. Qed.

(** With 1001 matching entries the scan stops at the cap: the buffer holds
    the first 1000 and the last match, ["ba"] at distance 1, is dropped. *)
Example crowded_store_capped :
  scan (str "ab") 1 2 0 (store_words crowded_store) [] fresh_buffer 0
  = ([], replicate 1000 {| word := str "ab"; dist := 0 |}, 1000%nat).
Proof. vm_compute. reflexivity. Qed.

(** * Further properties of the distance *)

Lemma osa_distance_upper a b : ∀ n i j,
  (i + j < n)%nat → osa_distance a b i j <= Z.of_nat (Nat.max i j).
Proof.
  induction n as [|n IH]; intros i j Hn; [lia|].
  destruct (decide (i = 0%nat)) as [->|Hi]; [rewrite osa_distance_0_l; lia|].
  destruct (decide (j = 0%nat)) as [->|Hj]; [rewrite osa_distance_0_r; lia|].
  rewrite osa_distance_step by lia. cbv zeta.
  pose proof (IH (i - 1)%nat (j - 1)%nat ltac:(lia)).
  repeat case_match; lia.
Qed.

Lemma osa_distance_lower a b : ∀ n i j,
  (i + j < n)%nat →
  Z.abs (Z.of_nat i - Z.of_nat j) <= osa_distance a b i j.
Proof.
  induction n as [|n IH]; intros i j Hn; [lia|].
  destruct (decide (i = 0%nat)) as [->|Hi]; [rewrite osa_distance_0_l; lia|].
  destruct (decide (j = 0%nat)) as [->|Hj]; [rewrite osa_distance_0_r; lia|].
  rewrite osa_distance_step by lia. cbv zeta.
  pose proof (IH (i - 1)%nat j ltac:(lia)).
  pose proof (IH i (j - 1)%nat ltac:(lia)).
  pose proof (IH (i - 1)%nat (j - 1)%nat ltac:(lia)).
  destruct ((1 <? i)%nat && (1 <? j)%nat
            && same_char (char_at a (i - 1)) (char_at b (j - 2))
            && same_char (char_at a (i - 2)) (char_at b (j - 1))) eqn:Hc.
  - apply andb_prop in Hc as [Hc _]. apply andb_prop in Hc as [Hc _].
    apply andb_prop in Hc as [Hi1 Hj1]. apply Nat.ltb_lt in Hi1, Hj1.
    pose proof (IH (i - 2)%nat (j - 2)%nat ltac:(lia)).
    case_match; lia.
  - case_match; lia.
Qed.

(** A zero in the recurrence means equal prefixes. *)
Lemma osa_distance_zero_prefix a b : ∀ n i j,
  (i + j < n)%nat → (i ≤ length a)%nat → (j ≤ length b)%nat →
  osa_distance a b i j = 0 → take i a = take j b.
Proof.
  induction n as [|n IH]; intros i j Hn Hia Hjb H0; [lia|].
  destruct (decide (i = 0%nat)) as [->|Hi].
  { rewrite osa_distance_0_l in H0. by replace j with 0%nat by lia. }
  destruct (decide (j = 0%nat)) as [->|Hj].
  { rewrite osa_distance_0_r in H0. lia. }
  rewrite osa_distance_step in H0 by lia. cbv zeta in H0.
  pose proof (osa_distance_nonneg a b (i - 1) j).
  pose proof (osa_distance_nonneg a b i (j - 1)).
  pose proof (osa_distance_nonneg a b (i - 1) (j - 1)).
  pose proof (osa_distance_nonneg a b (i - 2) (j - 2)).
  destruct (same_char (char_at a (i - 1)) (char_at b (j - 1))) eqn:Hc;
    [|exfalso; revert H0; case_match; lia].
  assert (osa_distance a b (i - 1) (j - 1) = 0) as Hprev
    by (revert H0; case_match; lia).
  apply IH in Hprev; [|lia..].
  unfold char_at in Hc.
  destruct (lookup_lt_is_Some_2 a (i - 1)%nat ltac:(lia)) as [x Hx].
  destruct (lookup_lt_is_Some_2 b (j - 1)%nat ltac:(lia)) as [y Hy].
  rewrite Hx, Hy in Hc. simpl in Hc. apply char_eqb_eq in Hc as ->.
  replace i with (S (i - 1)) by lia. replace j with (S (j - 1)) by lia.
  rewrite (take_S_r _ _ _ Hx), (take_S_r _ _ _ Hy). by rewrite Hprev.
Qed.

(** The allocator after the row loop: on success the requests it made are
    used up; it fails exactly when one of them fails. *)
Lemma alloc_rows_heap n cols : ∀ h,
  match alloc_rows n cols h with
  | (Some _, h') => allocations_succeed n h = true ∧ h' = drop n h
  | (None, _) => allocations_succeed n h = false
  end.
Proof.
  induction n as [|n IH]; intros h; simpl; [done|].
  destruct h as [|ok h]; simpl.
  - specialize (IH []). destruct (alloc_rows n cols []) as [[dp|] h2]; simpl.
    + destruct IH as [_ ->]. by rewrite drop_nil.
    + by destruct n.
  - destruct ok; [|done]. specialize (IH h).
    destruct (alloc_rows n cols h) as [[dp|] h2]; simpl; done.
Qed.

(** [X1] Whatever the allocator does, the distance function returns the
    failure sentinel -1 or a value that is at least the difference of the
    two lengths and at most the longer length. *)
Theorem distance_range (s1 s2 : cstring) (h : heap) :
  let d := fst (damerau_levenshtein_distance s1 s2 h) in
  d = -1
  ∨ (Z.abs (Z.of_nat (strlen s1) - Z.of_nat (strlen s2)) <= d
     ∧ d <= Z.max (Z.of_nat (strlen s1)) (Z.of_nat (strlen s2))).
Proof.
  cbv zeta. destruct (distance_cases s1 s2 h) as [->| ->]; [by left | right].
  pose proof (osa_distance_lower s1 s2 (S (strlen s1 + strlen s2))
                (strlen s1) (strlen s2) ltac:(lia)).
  pose proof (osa_distance_upper s1 s2 (S (strlen s1 + strlen s2))
                (strlen s1) (strlen s2) ltac:(lia)).
  lia.
Qed.

(** [X2] When the allocations succeed, the distance is 0 exactly when the
    two strings are equal. *)
Theorem distance_zero_iff_equal (a b : cstring) (h : heap) :
  allocations_succeed (strlen a + 2) h = true →
  fst (damerau_levenshtein_distance a b h) = 0 ↔ a = b.
Proof.
  intros H. rewrite distance_alloc_ok by done. split.
  - intros H0.
    apply (osa_distance_zero_prefix a b (S (strlen a + strlen b))) in H0;
      [|unfold strlen; lia..].
    unfold strlen in H0. by rewrite !firstn_all in H0.
  - intros ->. apply osa_distance_diag.
Qed.

Lemma distance_zero_iff_equal_witness :
  fst (damerau_levenshtein_distance (str "anyway") (str "anyway") [true]) = 0
  ↔ str "anyway" = str "anyway".
Proof. apply distance_zero_iff_equal. reflexivity. Defined.

(** [X3] On two non-empty strings the distance function makes
    [strlen s1 + 2] allocation requests: if they all succeed it returns the
    recurrence and has used exactly those requests, otherwise it returns
    -1. *)
Theorem distance_allocations (s1 s2 : cstring) (h : heap) :
  (0 < strlen s1)%nat → (0 < strlen s2)%nat →
  if allocations_succeed (strlen s1 + 2) h
  then damerau_levenshtein_distance s1 s2 h
       = (osa_distance s1 s2 (strlen s1) (strlen s2),
          drop (strlen s1 + 2) h)
  else fst (damerau_levenshtein_distance s1 s2 h) = -1.
Proof.
  intros H1 H2.
  pose proof (distance_alloc_ok s1 s2 h) as Hok.
  unfold damerau_levenshtein_distance in *. cbv zeta in *.
  destruct (Nat.eqb_spec (strlen s1) 0); [lia|].
  destruct (Nat.eqb_spec (strlen s2) 0); [lia|].
  replace (strlen s1 + 2)%nat with (S (strlen s1 + 1)) in * by lia.
  destruct h as [|ok h]; simpl in *.
  - pose proof (alloc_rows_heap (strlen s1 + 1) (strlen s2 + 1) []) as Hrows.
    destruct (alloc_rows (strlen s1 + 1) (strlen s2 + 1) []) as [[dp|] h2].
    + destruct Hrows as [_ ->]. simpl in *. rewrite drop_nil.
      by rewrite <- Hok.
    + by destruct (strlen s1 + 1)%nat.
  - unfold allocations_succeed in *. simpl in *. destruct ok; simpl; [|done].
    pose proof (alloc_rows_heap (strlen s1 + 1) (strlen s2 + 1) h) as Hrows.
    unfold allocations_succeed in Hrows.
    destruct (alloc_rows (strlen s1 + 1) (strlen s2 + 1) h) as [[dp|] h2].
    + destruct Hrows as [Hs ->]. rewrite Hs in *. simpl in *.
      by rewrite <- Hok.
    + by rewrite Hrows.
Qed.

Lemma distance_allocations_witness :
  if allocations_succeed (strlen (str "ab") + 2) [true; true; false; true]
  then damerau_levenshtein_distance (str "ab") (str "ba")
         [true; true; false; true]
       = (osa_distance (str "ab") (str "ba") (strlen (str "ab"))
            (strlen (str "ba")),
          drop (strlen (str "ab") + 2) [true; true; false; true])
  else fst (damerau_levenshtein_distance (str "ab") (str "ba")
              [true; true; false; true]) = -1.
Proof.
  apply (distance_allocations (str "ab") (str "ba") [true; true; false; true]).
  - simpl. lia.
  - simpl. lia.
Defined.

(** [X4] The distance is not a metric: the triangle inequality fails
    (the restricted variant cannot edit a transposed pair again). *)
Theorem distance_triangle_inequality_fails :
  ¬ (∀ a b c : cstring,
       fst (damerau_levenshtein_distance a c [])
       <= fst (damerau_levenshtein_distance a b [])
          + fst (damerau_levenshtein_distance b c [])).
Proof.
  intros H. specialize (H (str "ca") (str "ac") (str "abc")).
  vm_compute in H. by apply H.
Qed.

(** * Further properties of the ranking *)

Lemma for_loop_fixed {A} n : ∀ from (body : nat → A → A) st,
  (∀ k, (from ≤ k < from + n)%nat → body k st = st) →
  for_loop from n body st = st.
Proof.
  induction n as [|n IH]; intros from body st Hbody; [done|].
  rewrite for_loop_step, Hbody by lia. apply IH. intros k Hk. apply Hbody. lia.
Qed.

Lemma ranks_before_not_le a b :
  ranks_before b a = true → ranked_le a b → False.
Proof.
  unfold ranks_before, ranked_le.
  pose proof (strcmp_swap (word a) (word b)).
  rewrite orb_true_iff, andb_true_iff, !Z.ltb_lt, Z.eqb_eq.
  intros [?|[? ?]] [?|[? ?]]; lia.
Qed.

Lemma ranked_le_antisym a b : ranked_le a b → ranked_le b a → a = b.
Proof.
  unfold ranked_le. pose proof (strcmp_swap (word a) (word b)).
  intros [?|[Hd Hw]] [?|[Hd' Hw']]; try (exfalso; lia).
  assert (strcmp (word a) (word b) = 0) as Heq%strcmp_eq by lia.
  destruct a, b. simpl in *. by subst.
Qed.

Lemma sort_step_drop count i j s :
  (i < j < count)%nat → drop count (sort_step i j s) = drop count s.
Proof.
  intros Hij. unfold sort_step. repeat case_match; try done.
  rewrite !drop_insert_lt by lia. done.
Qed.

Lemma sort_suggestions_drop s count :
  drop count (sort_suggestions s count) = drop count s.
Proof.
  unfold sort_suggestions.
  apply (for_loop_inv (fun _ t => drop count t = drop count s)
           (count - 1) 0); [done|].
  intros i t Hi Ht.
  apply (for_loop_inv (fun _ u => drop count u = drop count s)
           (count - (i + 1)) (i + 1)); [done|].
  intros j u Hj Hu. rewrite sort_step_drop by lia. done.
Qed.

(** Entries in rank order by position are strongly sorted. *)
Lemma ranked_positions_sorted (l : list Suggestion) :
  (∀ p q a b, (p < q)%nat → l !! p = Some a → l !! q = Some b →
              ranked_le a b) →
  StronglySorted ranked_le l.
Proof.
  induction l as [|x l IH]; intros H; constructor.
  - apply IH. intros p q a b Hpq Ha Hb. apply (H (S p) (S q)); [lia|done..].
  - apply Forall_lookup. intros q b Hb. apply (H 0%nat (S q)); [lia|done..].
Qed.

Lemma sort_suggestions_sorted s count :
  StronglySorted ranked_le (take count (sort_suggestions s count)).
Proof.
  apply ranked_positions_sorted.
  intros p q a b Hpq [Ha Hp]%lookup_take_Some [Hb Hq]%lookup_take_Some.
  destruct (sort_suggestions_correct s count) as [Hranked _].
  eapply Hranked; [| |done..]; lia.
Qed.

(** [X5] [sort_suggestions] rearranges the first [count] entries of the
    buffer and nothing else: they are a permutation of what they were, the
    entries from position [count] on are untouched, and the buffer keeps
    its length. *)
Theorem sort_suggestions_rearranges (suggestions : list Suggestion)
    (count : nat) :
  take count (sort_suggestions suggestions count) ≡ₚ take count suggestions
  ∧ drop count (sort_suggestions suggestions count) = drop count suggestions
  ∧ length (sort_suggestions suggestions count) = length suggestions.
Proof.
  destruct (sort_suggestions_correct suggestions count) as (_ & Hp & Hl).
  split; [done|]. split; [apply sort_suggestions_drop | done].
Qed.

Lemma sort_suggestions_ranked_id s count :
  (∀ p q a b, (p < q < count)%nat → s !! p = Some a → s !! q = Some b →
              ranked_le a b) →
  sort_suggestions s count = s.
Proof.
  intros Hs. unfold sort_suggestions.
  apply for_loop_fixed. intros i Hi.
  apply for_loop_fixed. intros j Hj.
  unfold sort_step.
  destruct (s !! i) as [si|] eqn:Ei; [|done].
  destruct (s !! j) as [sj|] eqn:Ej; [|done].
  destruct (ranks_before sj si) eqn:Hcmp; [|done].
  exfalso. eapply ranks_before_not_le; [done|].
  eapply (Hs i j); [lia|done..].
Qed.

(** [X6] A buffer whose first [count] entries are already in rank order is
    left as it is. *)
Theorem sort_suggestions_ranked_unchanged (suggestions : list Suggestion)
    (count : nat) :
  (∀ p q a b, (p < q < count)%nat →
     suggestions !! p = Some a → suggestions !! q = Some b →
     dist a < dist b ∨ (dist a = dist b ∧ strcmp (word a) (word b) <= 0)) →
  sort_suggestions suggestions count = suggestions.
Proof. apply sort_suggestions_ranked_id. Qed.

Lemma sort_suggestions_ranked_unchanged_witness :
  sort_suggestions [ {| word := str "anyway"; dist := 1 |};
                     {| word := str "airway"; dist := 3 |};
                     {| word := str "any"; dist := 0 |} ] 2
  = [ {| word := str "anyway"; dist := 1 |};
      {| word := str "airway"; dist := 3 |};
      {| word := str "any"; dist := 0 |} ].
Proof.
  apply sort_suggestions_ranked_unchanged.
  intros p q a b Hpq Ha Hb.
  assert (p = 0%nat) as -> by lia. assert (q = 1%nat) as -> by lia.
  injection Ha as <-. injection Hb as <-. left. reflexivity.
Defined.

(** [X7] Sorting twice is sorting once. *)
Theorem sort_suggestions_idempotent (suggestions : list Suggestion)
    (count : nat) :
  sort_suggestions (sort_suggestions suggestions count) count
  = sort_suggestions suggestions count.
Proof.
  apply sort_suggestions_ranked_id. intros p q a b Hpq Ha Hb.
  destruct (sort_suggestions_correct suggestions count) as [Hranked _].
  eapply Hranked; [| |done..]; lia.
Qed.

(** [X8] The ranking depends on which suggestions the buffer holds, not on
    the order in which they were found: two buffers whose first [count]
    entries are permutations of each other are sorted to the same first
    [count] entries. *)
Theorem sort_suggestions_canonical (s1 s2 : list Suggestion) (count : nat) :
  take count s1 ≡ₚ take count s2 →
  take count (sort_suggestions s1 count)
  = take count (sort_suggestions s2 count).
Proof.
  intros Hperm.
  apply (StronglySorted_unique_strong ranked_le).
  - intros x1 x2 _ _. apply ranked_le_antisym.
  - apply sort_suggestions_sorted.
  - apply sort_suggestions_sorted.
  - destruct (sort_suggestions_correct s1 count) as (_ & -> & _).
    destruct (sort_suggestions_correct s2 count) as (_ & -> & _).
    done.
Qed.

Lemma sort_suggestions_canonical_witness :
  take 2 (sort_suggestions [ {| word := str "airway"; dist := 3 |};
                             {| word := str "anyway"; dist := 1 |} ] 2)
  = take 2 (sort_suggestions [ {| word := str "anyway"; dist := 1 |};
                               {| word := str "airway"; dist := 3 |} ] 2).
Proof.
  apply sort_suggestions_canonical. simpl. apply perm_swap.
Defined.

(** * Further properties of the queries *)

Lemma distance_nil_heap s1 s2 :
  damerau_levenshtein_distance s1 s2 []
  = (osa_distance s1 s2 (strlen s1) (strlen s2), []).
Proof.
  pose proof (distance_alloc_ok s1 s2 []
                ltac:(by destruct (strlen s1 + 2)%nat)) as Hd.
  unfold damerau_levenshtein_distance in *. cbv zeta in *.
  destruct (strlen s1 =? 0)%nat; [by rewrite <- Hd|].
  destruct (strlen s2 =? 0)%nat; [by rewrite <- Hd|].
  simpl in *.
  pose proof (alloc_rows_heap (strlen s1 + 1) (strlen s2 + 1) []) as Hrows.
  destruct (alloc_rows (strlen s1 + 1) (strlen s2 + 1) []) as [[dp|] h2].
  - destruct Hrows as [_ ->]. rewrite drop_nil. simpl in *. by rewrite <- Hd.
  - by destruct (strlen s1 + 1)%nat.
Qed.

Lemma scan_frame lower_word tolerance misspelled_word_len length_tolerance ws :
  ∀ h buf count,
    let r := scan lower_word tolerance misspelled_word_len length_tolerance
               ws h buf count in
    (count ≤ snd r)%nat
    ∧ length (snd (fst r)) = length buf
    ∧ drop (snd r) (snd (fst r)) = drop (snd r) buf.
Proof.
  induction ws as [|w ws IH]; intros h buf count; [done|].
  cbn [scan]. cbv zeta.
  destruct (length_filter misspelled_word_len length_tolerance w);
    cbn [negb]; [|apply IH].
  destruct (damerau_levenshtein_distance lower_word w h) as [d h1].
  destruct ((0 <=? d) && (d <=? tolerance)); [|apply IH].
  destruct (count <? MAX_TEMP_SUGGESTIONS)%nat; [|done].
  specialize (IH h1 (<[count := {| word := strncpy w (MAX_WORD_LEN - 1);
                                   dist := d |}]> buf) (S count)).
  cbv zeta in IH. destruct IH as (Hc & Hl & Hd).
  split; [lia|]. split; [by rewrite Hl, length_insert|].
  rewrite Hd, drop_insert_lt by lia. done.
Qed.

Lemma qualifying_length lower_word tolerance misspelled_word_len
    length_tolerance ws : ∀ h,
  (length (qualifying lower_word tolerance misspelled_word_len
             length_tolerance ws h) ≤ length ws)%nat.
Proof.
  induction ws as [|w ws IH]; intros h; [done|]. cbn [qualifying].
  destruct (length_filter misspelled_word_len length_tolerance w);
    cbn [negb]; [|specialize (IH h); simpl; lia].
  destruct (damerau_levenshtein_distance lower_word w h) as [d h1].
  destruct ((0 <=? d) && (d <=? tolerance)); specialize (IH h1); simpl; lia.
Qed.

(** With an allocator that never fails, the accepted candidates are the
    store entries that pass the length filters and lie within the
    tolerance. *)
Lemma qualifying_nil_heap lower_word tolerance misspelled_word_len
    length_tolerance ws s :
  s ∈ qualifying lower_word tolerance misspelled_word_len length_tolerance
        ws []
  ↔ word s ∈ ws
    ∧ length_filter misspelled_word_len length_tolerance (word s) = true
    ∧ dist s = osa_distance lower_word (word s)
                 (strlen lower_word) (strlen (word s))
    ∧ dist s <= tolerance.
Proof.
  split.
  - intros (? & ? & ? & ?)%qualifying_accepts. repeat split; (done || lia).
  - intros (Hw & Hf & Hd & Ht).
    induction ws as [|w ws IH]; [by apply elem_of_nil in Hw|].
    cbn [qualifying]. rewrite distance_nil_heap.
    pose proof (osa_distance_nonneg lower_word w (strlen lower_word) (strlen w)).
    apply elem_of_cons in Hw as [Hw|Hw].
    + subst w. rewrite Hf. cbn [negb]. rewrite <- Hd.
      destruct (Z.leb_spec 0 (dist s)); [|lia].
      destruct (Z.leb_spec (dist s) tolerance); [|lia].
      simpl. destruct s. simpl. apply list_elem_of_here.
    + specialize (IH Hw).
      destruct (length_filter misspelled_word_len length_tolerance w);
        cbn [negb]; [|done].
      destruct (_ && _); [by apply list_elem_of_further | done].
Qed.

Section Queries.
Variable g : globals.
Variable query : cstring.
Variables tolerance misspelled_word_len length_tolerance : Z.
Variable suggestions : list Suggestion.

Hypothesis store_wf : store_ok g = true.
Hypothesis buffer_room : (MAX_TEMP_SUGGESTIONS ≤ length suggestions)%nat.
Hypothesis under_cap : (length (store_words g) ≤ MAX_TEMP_SUGGESTIONS)%nat.

(** Below the cap and with an allocator that never fails, the returned
    suggestions are exactly the store entries that pass the length filters
    and lie within the tolerance, each with its distance. *)
Lemma returned_iff s :
  s ∈ returned (get_suggestions g query tolerance misspelled_word_len
                  length_tolerance suggestions [])
  ↔ word s ∈ store_words g
    ∧ length_filter misspelled_word_len length_tolerance (word s) = true
    ∧ dist s = osa_distance (lower_copy query) (word s)
                 (strlen (lower_copy query)) (strlen (word s))
    ∧ dist s <= tolerance.
Proof.
  rewrite (returned_accepted_ok g query tolerance misspelled_word_len
             length_tolerance suggestions [] store_wf buffer_room).
  rewrite take_ge.
  - apply qualifying_nil_heap.
  - etrans; [apply qualifying_length | done].
Qed.
End Queries.

(** [X9] [get_suggestions] writes only the entries it returns: the caller's
    buffer keeps its length, the entries from position [count] on are what
    they were, and [count] is between 0 and [MAX_TEMP_SUGGESTIONS]. *)
Theorem get_suggestions_frame (g : globals) (query : cstring)
    (tolerance misspelled_word_len length_tolerance : Z)
    (suggestions : list Suggestion) (h : heap) :
  (MAX_TEMP_SUGGESTIONS ≤ length suggestions)%nat →
  let r := get_suggestions g query tolerance misspelled_word_len
             length_tolerance suggestions h in
  0 <= fst (fst r) <= Z.of_nat MAX_TEMP_SUGGESTIONS
  ∧ length (snd (fst r)) = length suggestions
  ∧ drop (Z.to_nat (fst (fst r))) (snd (fst r))
    = drop (Z.to_nat (fst (fst r))) suggestions.
Proof.
  intros Hbuf r.
  destruct (returned_accepted g query tolerance misspelled_word_len
              length_tolerance suggestions h Hbuf) as [_ Hcount].
  fold r in Hcount. split.
  { rewrite Hcount, length_take. lia. }
  subst r. unfold get_suggestions.
  destruct (dictionary g) as [arr|]; [|done].
  destruct (dictionary_count g =? 0)%nat; [done|].
  pose proof (scan_frame (lower_copy query) tolerance misspelled_word_len
                length_tolerance (take (dictionary_count g) arr) h
                suggestions 0) as Hframe.
  cbv zeta in Hframe.
  destruct (scan _ _ _ _ _ _ _ _) as [[h' buf'] count']. simpl in *.
  destruct Hframe as (_ & Hl & Hd).
  destruct (sort_suggestions_correct buf' count') as (_ & _ & Hl').
  rewrite Nat2Z.id, sort_suggestions_drop. split; [by rewrite Hl', Hl | done].
Qed.

Lemma get_suggestions_frame_witness :
  let r := get_suggestions demo_store (str "nayway") 3 6 2 fresh_buffer [] in
  0 <= fst (fst r) <= Z.of_nat MAX_TEMP_SUGGESTIONS
  ∧ length (snd (fst r)) = length fresh_buffer
  ∧ drop (Z.to_nat (fst (fst r))) (snd (fst r))
    = drop (Z.to_nat (fst (fst r))) fresh_buffer.
Proof.
  apply (get_suggestions_frame demo_store (str "nayway") 3 6 2 fresh_buffer []).
  unfold fresh_buffer. rewrite length_replicate. reflexivity.
Defined.

(** [X10] When no allocation fails and the store has at most
    [MAX_TEMP_SUGGESTIONS] entries, the returned suggestions are exactly
    the store entries that pass both length filters and whose distance to
    the lower-cased query is at most the tolerance, each paired with that
    distance. *)
Theorem suggestions_complete (g : globals) (query : cstring)
    (tolerance misspelled_word_len length_tolerance : Z)
    (suggestions : list Suggestion) (s : Suggestion) :
  store_ok g = true →
  (MAX_TEMP_SUGGESTIONS ≤ length suggestions)%nat →
  (length (store_words g) ≤ MAX_TEMP_SUGGESTIONS)%nat →
  s ∈ returned (get_suggestions g query tolerance misspelled_word_len
                  length_tolerance suggestions [])
  ↔ word s ∈ store_words g
    ∧ length_filter misspelled_word_len length_tolerance (word s) = true
    ∧ dist s = osa_distance (lower_copy query) (word s)
                 (strlen (lower_copy query)) (strlen (word s))
    ∧ dist s <= tolerance.
Proof. intros. by apply returned_iff. Qed.

Lemma suggestions_complete_witness :
  {| word := str "airway"; dist := 3 |}
    ∈ returned (get_suggestions demo_store (str "nayway") 3 6 2
                  fresh_buffer [])
  ↔ str "airway" ∈ store_words demo_store
    ∧ length_filter 6 2 (str "airway") = true
    ∧ 3 = osa_distance (lower_copy (str "nayway")) (str "airway")
            (strlen (lower_copy (str "nayway"))) (strlen (str "airway"))
    ∧ 3 <= 3.
Proof.
  apply (suggestions_complete demo_store (str "nayway") 3 6 2 fresh_buffer
           {| word := str "airway"; dist := 3 |}).
  - reflexivity.
  - unfold fresh_buffer. rewrite length_replicate. reflexivity.
  - vm_compute. lia.
Defined.

(** [X11] An exact match is ranked first: when no allocation fails, the
    store has at most [MAX_TEMP_SUGGESTIONS] entries, the stated length is
    the length of the lower-cased query and both tolerances are
    non-negative, a query that is in the store comes back as the first
    suggestion, at distance 0. *)
Theorem exact_match_ranked_first (g : globals) (query : cstring)
    (tolerance length_tolerance : Z) (suggestions : list Suggestion) :
  store_ok g = true →
  (MAX_TEMP_SUGGESTIONS ≤ length suggestions)%nat →
  (length (store_words g) ≤ MAX_TEMP_SUGGESTIONS)%nat →
  lower_copy query ∈ store_words g →
  0 <= tolerance → 0 <= length_tolerance →
  returned (get_suggestions g query tolerance
              (Z.of_nat (strlen (lower_copy query))) length_tolerance
              suggestions []) !! 0%nat
  = Some {| word := lower_copy query; dist := 0 |}.
Proof.
  intros Hok Hbuf Hcap Hin Htol Hltol.
  set (lq := lower_copy query) in *.
  set (r := get_suggestions g query tolerance (Z.of_nat (strlen lq))
              length_tolerance suggestions []).
  pose proof (returned_iff g query tolerance (Z.of_nat (strlen lq))
                length_tolerance suggestions Hok Hbuf Hcap) as Hiff.
  fold lq r in Hiff.
  assert ({| word := lq; dist := 0 |} ∈ returned r) as Ht.
  { apply Hiff. simpl. split; [done|]. split; [|split; [|done]].
    - unfold length_filter. cbv zeta.
      rewrite Z.ltb_irrefl, Z.sub_diag.
      change (c_abs (wrap_int 0)) with 0.
      by destruct (Z.gtb_spec 0 length_tolerance); [lia|].
    - symmetry. apply osa_distance_diag. }
  apply list_elem_of_lookup_1 in Ht as [k Hk].
  destruct (returned r !! 0%nat) as [a|] eqn:Ha.
  2:{ apply lookup_ge_None in Ha. apply lookup_lt_Some in Hk. lia. }
  destruct k as [|k]; [congruence|]. f_equal.
  assert (ranked_le a {| word := lq; dist := 0 |}) as Hle.
  { eapply (returned_ranked g query tolerance (Z.of_nat (strlen lq))
              length_tolerance suggestions [] 0 (S k)); [lia|done..]. }
  assert (a ∈ returned r) as Hain by (by eapply list_elem_of_lookup_2).
  apply Hiff in Hain as (Hw & _ & Hd & _).
  pose proof (osa_distance_nonneg lq (word a) (strlen lq) (strlen (word a))).
  destruct Hle as [Hlt|[Hd0 _]]; simpl in *; [lia|].
  rewrite Hd0 in Hd. symmetry in Hd.
  apply (osa_distance_zero_prefix lq (word a)
           (S (strlen lq + strlen (word a)))) in Hd; [|unfold strlen; lia..].
  unfold strlen in Hd. rewrite !firstn_all in Hd.
  destruct a as [wa da]. simpl in *. by subst.
Qed.

Lemma exact_match_ranked_first_witness :
  returned (get_suggestions demo_store (str "AirWay") 2
              (Z.of_nat (strlen (lower_copy (str "AirWay")))) 1
              fresh_buffer []) !! 0%nat
  = Some {| word := lower_copy (str "AirWay"); dist := 0 |}.
Proof.
  apply (exact_match_ranked_first demo_store (str "AirWay") 2 1 fresh_buffer).
  - reflexivity.
  - unfold fresh_buffer. rewrite length_replicate. reflexivity.
  - vm_compute. lia.
  - vm_compute. apply list_elem_of_further, list_elem_of_further,
      list_elem_of_here.
  - vm_compute. discriminate.
  - vm_compute. discriminate.
Defined.

(** [X12] Pruning by length difference loses nothing: when the stated
    length is the true length of the lower-cased query and
    [length_tolerance >= tolerance], every store entry that is at least as
    long as the query and within the tolerance is returned (no allocation
    failing, store of at most [MAX_TEMP_SUGGESTIONS] entries).  Only the
    shorter-word filter can reject a candidate within the tolerance. *)
Theorem length_tolerance_loses_nothing (g : globals) (query : cstring)
    (tolerance length_tolerance : Z) (suggestions : list Suggestion)
    (w : DictionaryWord) :
  store_ok g = true →
  (MAX_TEMP_SUGGESTIONS ≤ length suggestions)%nat →
  (length (store_words g) ≤ MAX_TEMP_SUGGESTIONS)%nat →
  tolerance <= length_tolerance →
  w ∈ store_words g →
  (strlen (lower_copy query) ≤ strlen w)%nat →
  osa_distance (lower_copy query) w (strlen (lower_copy query)) (strlen w)
  <= tolerance →
  {| word := w;
     dist := osa_distance (lower_copy query) w
               (strlen (lower_copy query)) (strlen w) |}
    ∈ returned (get_suggestions g query tolerance
                  (Z.of_nat (strlen (lower_copy query))) length_tolerance
                  suggestions []).
Proof.
  intros Hok Hbuf Hcap Htol Hw Hlen Hd.
  apply (returned_iff g query tolerance _ length_tolerance suggestions
           Hok Hbuf Hcap).
  simpl. split; [done|]. split; [|done].
  pose proof (store_ok_words g Hok) as Hall.
  rewrite Forall_forall in Hall. apply Hall in Hw.
  pose proof (osa_distance_lower (lower_copy query) w
                (S (strlen (lower_copy query) + strlen w))
                (strlen (lower_copy query)) (strlen w) ltac:(lia)) as Hlow.
  unfold length_filter. cbv zeta.
  destruct (Z.ltb_spec (Z.of_nat (strlen w))
              (Z.of_nat (strlen (lower_copy query)))); [lia|].
  unfold c_abs, MAX_WORD_LEN in *.
  rewrite (wrap_int_small (_ - _)) by (unfold INT_MIN, INT_MAX; lia).
  rewrite wrap_int_small by (unfold INT_MIN, INT_MAX; lia).
  by destruct (Z.gtb_spec (Z.abs (Z.of_nat (strlen w)
                                   - Z.of_nat (strlen (lower_copy query))))
                 length_tolerance); [lia|].
Qed.

Lemma length_tolerance_loses_nothing_witness :
  {| word := str "anyway";
     dist := osa_distance (lower_copy (str "anywy")) (str "anyway")
               (strlen (lower_copy (str "anywy"))) (strlen (str "anyway")) |}
    ∈ returned (get_suggestions demo_store (str "anywy") 1
                  (Z.of_nat (strlen (lower_copy (str "anywy")))) 1
                  fresh_buffer []).
Proof.
  apply (length_tolerance_loses_nothing demo_store (str "anywy") 1 1
           fresh_buffer (str "anyway")).
  - reflexivity.
  - unfold fresh_buffer. rewrite length_replicate. reflexivity.
  - vm_compute. lia.
  - vm_compute. discriminate.
  - vm_compute. apply list_elem_of_here.
  - vm_compute. lia.
  - vm_compute. discriminate.
Defined.

Lemma lower_copy_fold q1 q2 :
  map tolower q1 = map tolower q2 → lower_copy q1 = lower_copy q2.
Proof.
  intros H. unfold lower_copy, strncpy.
  by rewrite <- !firstn_map, H.
Qed.

(** [X13] The queries ignore ASCII case: two query words with the same
    lower-case folding get the same answer from [is_word_correct] and the
    same result from [get_suggestions]. *)
Theorem queries_ignore_case (g : globals) (q1 q2 : cstring)
    (tolerance misspelled_word_len length_tolerance : Z)
    (suggestions : list Suggestion) (h : heap) :
  map tolower q1 = map tolower q2 →
  is_word_correct g q1 = is_word_correct g q2
  ∧ get_suggestions g q1 tolerance misspelled_word_len length_tolerance
      suggestions h
    = get_suggestions g q2 tolerance misspelled_word_len length_tolerance
        suggestions h.
Proof.
  intros H%lower_copy_fold. unfold is_word_correct, get_suggestions.
  by rewrite H.
Qed.

Lemma queries_ignore_case_witness :
  is_word_correct demo_store (str "AnyWay")
  = is_word_correct demo_store (str "anyway")
  ∧ get_suggestions demo_store (str "AnyWay") 3 6 2 fresh_buffer []
    = get_suggestions demo_store (str "anyway") 3 6 2 fresh_buffer [].
Proof.
  apply (queries_ignore_case demo_store (str "AnyWay") (str "anyway")).
  reflexivity.
Defined.

(** * Further properties of loading *)

Lemma strcspn_take_clean reject s :
  Forall (fun c => existsb (char_eqb c) reject = false)
    (take (strcspn s reject) s).
Proof.
  induction s as [|c s IH]; simpl; [constructor|].
  destruct (existsb (char_eqb c) reject) eqn:E; simpl; [constructor|].
  by constructor.
Qed.

Lemma strcspn_stop reject s c t :
  Forall (fun c => existsb (char_eqb c) reject = false) s →
  existsb (char_eqb c) reject = true →
  strcspn (s ++ c :: t) reject = length s.
Proof.
  intros Hs Hc. induction Hs as [|x s Hx Hs IH]; simpl.
  - by rewrite Hc.
  - by rewrite Hx, IH.
Qed.

Lemma strcspn_all reject s :
  Forall (fun c => existsb (char_eqb c) reject = false) s →
  strcspn s reject = length s.
Proof.
  intros Hs. induction Hs as [|x s Hx Hs IH]; simpl; [done|].
  by rewrite Hx, IH.
Qed.

Lemma clean_chars_spec w :
  forallb clean_char w = true →
  Forall (fun c => existsb (char_eqb c) [NUL] = false) (w ++ [LF])
  ∧ Forall (fun c => existsb (char_eqb c) [LF; CR] = false) w
  ∧ no_newline w = true.
Proof.
  intros H. rewrite forallb_forall in H. split; [|split].
  - apply Forall_app. split; [|by repeat constructor].
    apply Forall_forall. intros c Hc%list_elem_of_In%H.
    unfold clean_char in Hc. simpl.
    by destruct (char_eqb c LF), (char_eqb c CR), (char_eqb c NUL).
  - apply Forall_forall. intros c Hc%list_elem_of_In%H.
    unfold clean_char in Hc. simpl.
    by destruct (char_eqb c LF), (char_eqb c CR), (char_eqb c NUL).
  - unfold no_newline. apply forallb_forall. intros c Hc%H.
    unfold clean_char in Hc.
    by destruct (char_eqb c LF), (char_eqb c CR), (char_eqb c NUL).
Qed.

(** A clean line is stored as its lower-case folding. *)
Lemma normalize_line_clean w :
  forallb clean_char w = true → normalize_line (w ++ [LF]) = map tolower w.
Proof.
  intros (Hnul & Hterm & _)%clean_chars_spec.
  unfold normalize_line, c_str. cbv zeta.
  rewrite (strcspn_all _ _ Hnul), firstn_all.
  rewrite (strcspn_stop [LF; CR] w LF [] Hterm) by done.
  by rewrite take_app_length.
Qed.

Lemma fgets_line line post :
  no_newline line = true → (length line ≤ MAX_LINE_LEN - 2)%nat →
  fgets MAX_LINE_LEN (line ++ LF :: post) = Some (line ++ [LF], post).
Proof.
  intros Hnl Hlen. unfold fgets. destruct (line ++ LF :: post) eqn:El.
  - by destruct line.
  - rewrite <- El. f_equal. apply fgets_chars_line; [done|].
    unfold MAX_LINE_LEN in *. lia.
Qed.

Lemma clean_word_spec w :
  clean_word w = true →
  forallb clean_char w = true ∧ (strlen w < MAX_WORD_LEN)%nat.
Proof. intros [? ?%Nat.ltb_lt]%andb_prop. done. Qed.

(** One iteration of the load loop on a clean line, when the array has
    room or the reallocation succeeds: the folded word is appended. *)
Lemma read_lines_clean_line fuel w post arr count capacity h :
  clean_word w = true →
  read_lines (S fuel) (w ++ LF :: post) arr count capacity h
  = if Z.of_nat count >=? capacity then
      let '(ok, h1) := malloc h in
      if negb ok then
        Some (0, {| dictionary := None; dictionary_count := 0;
                    dictionary_capacity := 0 |}, h1)
      else read_lines fuel post (arr ++ [map tolower w]) (S count)
             (wrap_int (capacity * 2)) h1
    else read_lines fuel post (arr ++ [map tolower w]) (S count) capacity h.
Proof.
  intros [Hclean Hlen]%clean_word_spec.
  destruct (clean_chars_spec w Hclean) as (_ & _ & Hnl).
  rewrite (read_lines_step fuel _ (w ++ [LF]) post).
  2:{ apply fgets_line; [done|]. unfold strlen, MAX_WORD_LEN, MAX_LINE_LEN in *.
      lia. }
  cbv zeta. rewrite normalize_line_clean by done.
  assert (strlen (map tolower w) = strlen w) as Hl
    by (unfold strlen; apply length_map).
  rewrite Hl. destruct (Nat.ltb_spec (strlen w) MAX_WORD_LEN); [|lia].
  assert (strncpy (map tolower w) (MAX_WORD_LEN - 1) = map tolower w) as ->.
  { unfold strncpy. apply take_ge. unfold strlen, MAX_WORD_LEN in *. lia. }
  done.
Qed.

Lemma read_lines_word_file ws : ∀ fuel arr count capacity h,
  forallb clean_word ws = true →
  Z.of_nat (count + length ws) <= capacity →
  (length (word_file ws) ≤ fuel)%nat →
  read_lines fuel (word_file ws) arr count capacity h
  = Some (1, {| dictionary := Some (arr ++ map (map tolower) ws);
                dictionary_count := count + length ws;
                dictionary_capacity := capacity |}, h).
Proof.
  induction ws as [|w ws IH]; intros fuel arr count capacity h Hws Hcap Hfuel.
  - simpl. rewrite read_lines_eof by done.
    by rewrite app_nil_r, Nat.add_0_r.
  - simpl in Hws. apply andb_prop in Hws as [Hw Hws].
    change (word_file (w :: ws)) with ((w ++ [LF]) ++ word_file ws) in *.
    rewrite <- app_assoc in *. simpl app in *.
    destruct fuel as [|fuel];
      [rewrite length_app in Hfuel; simpl in Hfuel; lia|].
    rewrite read_lines_clean_line by done.
    simpl length in Hcap.
    destruct (Z.geb_spec (Z.of_nat count) capacity); [lia|].
    rewrite IH; [|done|lia|rewrite length_app in Hfuel; simpl in Hfuel; lia].
    rewrite <- app_assoc. simpl. do 4 f_equal. lia.
Qed.

(** [X14] Loading a file of clean words, one per line, of at most
    [DICTIONARY_SIZE] lines, when the first allocation succeeds: the load
    returns 1, the store holds exactly the lower-case foldings of the
    words, in file order, and no further allocation is made. *)
Theorem load_dictionary_word_file (ws : list cstring) (g : globals)
    (h h1 : heap) :
  forallb clean_word ws = true →
  Z.of_nat (length ws) <= DICTIONARY_SIZE →
  malloc h = (true, h1) →
  load_dictionary (Some (word_file ws)) g h
  = (1, {| dictionary := Some (map (map tolower) ws);
           dictionary_count := length ws;
           dictionary_capacity := DICTIONARY_SIZE |}, h1).
Proof.
  intros Hws Hlen Hm. unfold load_dictionary. cbv zeta. rewrite Hm. simpl negb.
  cbv iota. by rewrite read_lines_word_file.
Qed.

Lemma load_dictionary_word_file_witness :
  load_dictionary (Some (word_file [str "Anyway"; str "any"; str "AIRWAY"]))
    demo_store [true; false]
  = (1, {| dictionary :=
             Some (map (map tolower) [str "Anyway"; str "any"; str "AIRWAY"]);
           dictionary_count := length [str "Anyway"; str "any"; str "AIRWAY"];
           dictionary_capacity := DICTIONARY_SIZE |}, [false]).
Proof.
  apply load_dictionary_word_file.
  - reflexivity.
  - vm_compute. discriminate.
  - reflexivity.
Defined.

(** A successful run of the load loop only appends to the array, and keeps
    the count equal to the number of entries. *)
Lemma read_lines_extends fuel : ∀ file arr count capacity h g' h',
  read_lines fuel file arr count capacity h = Some (1, g', h') →
  ∃ more, dictionary g' = Some (arr ++ more)
          ∧ dictionary_count g' = (count + length more)%nat.
Proof.
  induction fuel as [|fuel IH]; intros file arr count capacity h g' h' Hr.
  - destruct (fgets MAX_LINE_LEN file) as [[buf rest]|] eqn:E.
    + cbn [read_lines] in Hr. by rewrite E in Hr.
    + rewrite read_lines_eof in Hr by done. simplify_eq. exists [].
      by rewrite app_nil_r, Nat.add_0_r.
  - destruct (fgets MAX_LINE_LEN file) as [[buf rest]|] eqn:E.
    2:{ rewrite read_lines_eof in Hr by done. simplify_eq. exists [].
        by rewrite app_nil_r, Nat.add_0_r. }
    rewrite (read_lines_step _ _ _ _ _ _ _ _ E) in Hr. cbv zeta in Hr.
    assert (∀ capacity1 h1,
      read_lines fuel rest
        (arr ++ [strncpy (normalize_line buf) (MAX_WORD_LEN - 1)])
        (S count) capacity1 h1 = Some (1, g', h') →
      ∃ more, dictionary g' = Some (arr ++ more)
              ∧ dictionary_count g' = (count + length more)%nat) as Hstore.
    { intros capacity1 h1 (more & Hd & Hc)%IH.
      exists (strncpy (normalize_line buf) (MAX_WORD_LEN - 1) :: more).
      rewrite <- app_assoc in Hd. split; [done|]. simpl. lia. }
    destruct (strlen (normalize_line buf) <? MAX_WORD_LEN)%nat;
      [|by eapply IH].
    destruct (Z.of_nat count >=? capacity); [|by eapply Hstore].
    destruct (malloc h) as [ok h1]. destruct ok; simpl in Hr; [|done].
    by eapply Hstore.
Qed.

(** A successful run of the load loop over a file that starts with whole
    lines passes through the state in which the rest is to be read. *)
Lemma read_lines_prefix rest : ∀ n pre fuel arr count capacity h g' h',
  (length pre < n)%nat → line_start pre = true →
  read_lines fuel (pre ++ rest) arr count capacity h = Some (1, g', h') →
  ∃ fuel1 arr1 count1 capacity1 h1,
    read_lines fuel1 rest (arr ++ arr1) count1 capacity1 h1
    = Some (1, g', h')
    ∧ count1 = (count + length arr1)%nat.
Proof.
  induction n as [|n IH];
    intros pre fuel arr count capacity h g' h' Hn Hstart Hr; [lia|].
  destruct (line_start_cases pre Hstart) as [->|[p ->]].
  { exists fuel, [], count, capacity, h. simpl.
    by rewrite app_nil_r, Nat.add_0_r. }
  destruct (fgets_chars_prefix p (MAX_LINE_LEN - 1) rest) as [E1 Hs].
  pose proof (fgets_chars_length (MAX_LINE_LEN - 1) (p ++ [LF])) as [_ Hlt].
  destruct (fgets_chars (MAX_LINE_LEN - 1) (p ++ [LF])) as [buf r] eqn:Ep.
  cbn [fst snd] in E1, Hs, Hlt.
  specialize (Hlt ltac:(by destruct p) ltac:(unfold MAX_LINE_LEN; lia)).
  assert (fgets MAX_LINE_LEN ((p ++ [LF]) ++ rest) = Some (buf, r ++ rest))
    as F by (unfold fgets; rewrite <- E1; by destruct p).
  destruct fuel as [|fuel]; [cbn [read_lines] in Hr; by rewrite F in Hr|].
  rewrite (read_lines_step _ _ _ _ _ _ _ _ F) in Hr. cbv zeta in Hr.
  assert (∀ capacity1 h1,
    read_lines fuel (r ++ rest)
      (arr ++ [strncpy (normalize_line buf) (MAX_WORD_LEN - 1)])
      (S count) capacity1 h1 = Some (1, g', h') →
    ∃ fuel1 arr1 count1 capacity2 h2,
      read_lines fuel1 rest (arr ++ arr1) count1 capacity2 h2
      = Some (1, g', h')
      ∧ count1 = (count + length arr1)%nat) as Hstore.
  { intros capacity1 h1 Hrec.
    apply IH in Hrec as (fuel1 & arr1 & count1 & capacity2 & h2 & Hrec & Hc);
      [|lia|done].
    exists fuel1, (strncpy (normalize_line buf) (MAX_WORD_LEN - 1) :: arr1),
      count1, capacity2, h2.
    rewrite <- app_assoc in Hrec. split; [done|]. simpl. lia. }
  destruct (strlen (normalize_line buf) <? MAX_WORD_LEN)%nat;
    [|eapply IH; [|done..]; lia].
  destruct (Z.of_nat count >=? capacity); [|by eapply Hstore].
  destruct (malloc h) as [ok h1]. destruct ok; simpl in Hr; [|done].
  by eapply Hstore.
Qed.

(** [X15] Load, then look up: after a successful load, every clean word
    that stands on a line of its own in the file is reported correct by
    [is_word_correct], whatever else the file holds. *)
Theorem loaded_word_is_correct (pre post : list ascii) (w : cstring)
    (g g' : globals) (h h' : heap) :
  line_start pre = true →
  clean_word w = true →
  load_dictionary (Some (pre ++ w ++ LF :: post)) g h = (1, g', h') →
  is_word_correct g' w = 1.
Proof.
  intros Hstart Hw Hload. unfold load_dictionary in Hload. cbv zeta in Hload.
  destruct (malloc h) as [ok h0]. destruct ok; simpl in Hload; [|done].
  destruct (read_lines_fuel (length (pre ++ w ++ LF :: post))
              (length (pre ++ w ++ LF :: post)) (pre ++ w ++ LF :: post)
              [] 0 DICTIONARY_SIZE h0) as [_ [r Hr]]; [done..|].
  rewrite Hr in Hload. subst r.
  apply (read_lines_prefix _ (S (length pre))) in Hr
    as (fuel1 & arr1 & count1 & capacity1 & h1 & Hr & Hc); [|lia|done].
  rewrite app_nil_l in Hr. rewrite Nat.add_0_l in Hc.
  destruct fuel1 as [|fuel1].
  { destruct (clean_word_spec w Hw) as [Hclean Hlen].
    destruct (clean_chars_spec w Hclean) as (_ & _ & Hnl).
    cbn [read_lines] in Hr. rewrite fgets_line in Hr; [done | done |].
    unfold strlen, MAX_WORD_LEN, MAX_LINE_LEN in *. lia. }
  rewrite read_lines_clean_line in Hr by done.
  assert (∃ capacity2 h2,
    read_lines fuel1 post (arr1 ++ [map tolower w]) (S count1) capacity2 h2
    = Some (1, g', h')) as (capacity2 & h2 & Hrest).
  { destruct (Z.of_nat count1 >=? capacity1); [|by eauto].
    destruct (malloc h1) as [ok h2]. destruct ok; simpl in Hr; [|done].
    by eauto. }
  apply read_lines_extends in Hrest as (more & Hd & Hcount).
  apply clean_word_spec in Hw as [_ Hlen].
  unfold is_word_correct. rewrite Hd, Hcount.
  destruct (Nat.eqb_spec (S count1 + length more) 0); [lia|].
  apply find_word_spec. rewrite take_ge.
  2:{ rewrite !length_app. simpl. lia. }
  unfold lower_copy, strncpy.
  rewrite take_ge by (unfold strlen, MAX_WORD_LEN in *; lia).
  rewrite <- app_assoc. apply elem_of_app. right. apply list_elem_of_here.
Qed.

Lemma loaded_word_is_correct_witness :
  is_word_correct
    (store_of [str "anyway"; str ""; str "air way"; str "any"])
    (str "Any") = 1.
Proof.
  apply (loaded_word_is_correct
           (str "anyway" ++ [CR; LF] ++ [LF] ++ str "Air Way" ++ [LF])
           (replicate 60 "x"%char) (str "Any") initial_globals
           (store_of [str "anyway"; str ""; str "air way"; str "any"])
           [] []).
  - reflexivity.
  - reflexivity.
  - vm_compute. reflexivity.
Defined.

Lemma take_elem_of {A} (x : A) n l : x ∈ take n l → x ∈ l.
Proof. apply subseteq_take. Qed.

Lemma tolower_normal c : clean_char c = true → normal_char (tolower c) = true.
Proof.
  destruct c as [[] [] [] [] [] [] [] []]; vm_compute; intros H;
    (reflexivity || discriminate H).
Qed.

(** Whatever [fgets] read, the line as normalized holds only normal
    characters. *)
Lemma normalize_line_normal buf :
  forallb normal_char (strncpy (normalize_line buf) (MAX_WORD_LEN - 1)) = true.
Proof.
  apply forallb_forall. intros c Hc%list_elem_of_In.
  unfold strncpy in Hc. apply take_elem_of in Hc.
  unfold normalize_line in Hc. cbv zeta in Hc.
  apply list_elem_of_In, in_map_iff in Hc as (x & <- & Hx%list_elem_of_In).
  apply tolower_normal.
  pose proof (strcspn_take_clean [LF; CR] (c_str buf)) as Hterm.
  pose proof (strcspn_take_clean [NUL] buf) as Hnul. fold (c_str buf) in Hnul.
  rewrite Forall_forall in Hterm, Hnul.
  pose proof (Hterm x Hx) as H1.
  pose proof (Hnul x (take_elem_of _ _ _ Hx)) as H2.
  simpl in H1, H2. unfold clean_char.
  by destruct (char_eqb x LF), (char_eqb x CR), (char_eqb x NUL).
Qed.

Lemma read_lines_normal fuel : ∀ file arr count capacity h r g' h',
  read_lines fuel file arr count capacity h = Some (r, g', h') →
  Forall (fun w => forallb normal_char w = true) arr →
  ∀ w, w ∈ store_words g' → forallb normal_char w = true.
Proof.
  induction fuel as [|fuel IH];
    intros file arr count capacity h r g' h' Hr Harr.
  - destruct (fgets MAX_LINE_LEN file) as [[buf rest]|] eqn:E.
    + cbn [read_lines] in Hr. by rewrite E in Hr.
    + rewrite read_lines_eof in Hr by done. simplify_eq.
      intros w Hw%take_elem_of. rewrite Forall_forall in Harr.
      by apply Harr.
  - destruct (fgets MAX_LINE_LEN file) as [[buf rest]|] eqn:E.
    2:{ rewrite read_lines_eof in Hr by done. simplify_eq.
        intros w Hw%take_elem_of. rewrite Forall_forall in Harr.
        by apply Harr. }
    rewrite (read_lines_step _ _ _ _ _ _ _ _ E) in Hr. cbv zeta in Hr.
    assert (Forall (fun w => forallb normal_char w = true)
              (arr ++ [strncpy (normalize_line buf) (MAX_WORD_LEN - 1)]))
      as Harr'.
    { apply Forall_app. split; [done|]. constructor; [|done].
      apply normalize_line_normal. }
    destruct (strlen (normalize_line buf) <? MAX_WORD_LEN)%nat;
      [|by eapply IH].
    destruct (Z.of_nat count >=? capacity); [|by eapply IH].
    destruct (malloc h) as [ok h1]. destruct ok; simpl in Hr; [by eapply IH|].
    simplify_eq. by intros w ?%elem_of_nil.
Qed.

(** The words of a store left by a load hold only normal characters. *)
Lemma load_words_normal file g h w :
  w ∈ store_words (snd (fst (load_dictionary file g h))) →
  forallb normal_char w = true.
Proof.
  intros Hw. unfold load_dictionary in Hw. cbv zeta in Hw.
  destruct file as [content|]; [|by apply elem_of_nil in Hw].
  destruct (malloc h) as [ok h1].
  destruct ok; simpl in Hw; [|by apply elem_of_nil in Hw].
  destruct (read_lines (length content) content [] 0 DICTIONARY_SIZE h1)
    as [[[r g'] h']|] eqn:Hr; [|by apply elem_of_nil in Hw].
  by eapply read_lines_normal.
Qed.

Lemma normal_word_fixed w :
  forallb normal_char w = true → map tolower w = w.
Proof.
  intros Hn. rewrite forallb_forall in Hn.
  rewrite <- (map_id w) at 2. apply map_ext_in.
  intros c [?%char_eqb_eq _]%Hn%andb_prop. done.
Qed.

(** [X16] Whatever the file holds, every word in the store after a load is
    in normal form: lower-casing leaves it unchanged, and it contains no
    newline, no carriage return and no NUL. *)
Theorem stored_words_normalized (file : option (list ascii)) (g : globals)
    (h : heap) (w : DictionaryWord) :
  w ∈ store_words (snd (fst (load_dictionary file g h))) →
  map tolower w = w ∧ (LF ∉ w) ∧ (CR ∉ w) ∧ (NUL ∉ w).
Proof.
  intros Hn%load_words_normal. split; [by apply normal_word_fixed|].
  rewrite forallb_forall in Hn.
  assert (∀ c, c ∈ w → clean_char c = true) as Hc
    by (by intros c [_ ?]%list_elem_of_In%Hn%andb_prop).
  split; [|split]; intros H%Hc; by vm_compute in H.
Qed.

Lemma stored_words_normalized_witness :
  map tolower (str "air way") = str "air way"
  ∧ (LF ∉ str "air way") ∧ (CR ∉ str "air way") ∧ (NUL ∉ str "air way").
Proof.
  apply (stored_words_normalized
           (Some (str "ANYWAY" ++ [CR; LF] ++ str "Air Way" ++ [LF]))
           initial_globals []).
  vm_compute. apply list_elem_of_further, list_elem_of_here.
Defined.

Lemma read_lines_succeeds fuel : ∀ file arr count capacity h,
  forallb (fun ok => ok) h = true → (length file ≤ fuel)%nat →
  ∃ g' h', read_lines fuel file arr count capacity h = Some (1, g', h').
Proof.
  induction fuel as [|fuel IH]; intros file arr count capacity h Hh Hfuel.
  - destruct file; [|simpl in Hfuel; lia].
    rewrite read_lines_eof by done. by eexists _, _.
  - destruct (fgets MAX_LINE_LEN file) as [[buf rest]|] eqn:E.
    2:{ rewrite read_lines_eof by done. by eexists _, _. }
    pose proof (fgets_Some _ _ _ _ E ltac:(unfold MAX_LINE_LEN; lia)) as Hlt.
    rewrite (read_lines_step _ _ _ _ _ _ _ _ E). cbv zeta.
    destruct (strlen (normalize_line buf) <? MAX_WORD_LEN)%nat;
      [|apply IH; [done | lia]].
    destruct (Z.of_nat count >=? capacity); [|apply IH; [done | lia]].
    destruct h as [|ok h1]; simpl; [apply IH; [done | lia]|].
    simpl in Hh. apply andb_prop in Hh as [-> Hh]. simpl.
    apply IH; [done | lia].
Qed.

(** [X17] A load fails only on its environment: when the file can be
    opened and no allocation request fails, [load_dictionary] returns 1
    with a non-NULL dictionary whose count is the number of its entries,
    each shorter than [MAX_WORD_LEN], whatever the file holds and whatever
    was loaded before. *)
Theorem load_dictionary_succeeds (content : list ascii) (g : globals)
    (h : heap) :
  forallb (fun ok => ok) h = true →
  let r := load_dictionary (Some content) g h in
  fst (fst r) = 1
  ∧ is_Some (dictionary (snd (fst r)))
  ∧ store_ok (snd (fst r)) = true.
Proof.
  intros Hh r.
  pose proof (load_dictionary_result (Some content) g h) as Hres.
  assert (fst (fst r) = 1) as H1.
  { subst r. unfold load_dictionary. cbv zeta.
    destruct h as [|ok h1]; simpl.
    - destruct (read_lines_succeeds (length content) content [] 0
                  DICTIONARY_SIZE []) as (g' & h' & ->); done.
    - simpl in Hh. apply andb_prop in Hh as [-> Hh]. simpl.
      destruct (read_lines_succeeds (length content) content [] 0
                  DICTIONARY_SIZE h1) as (g' & h' & ->); done. }
  fold r in Hres. destruct r as [[c g'] h']. simpl in *.
  destruct Hres as [Hok [[_ Hd]|[? _]]]; [done | lia].
Qed.

Lemma load_dictionary_succeeds_witness :
  let r := load_dictionary (Some (str "Anyway" ++ [LF; LF] ++ str "any"))
             demo_store [true; true] in
  fst (fst r) = 1
  ∧ is_Some (dictionary (snd (fst r)))
  ∧ store_ok (snd (fst r)) = true.
Proof.
  apply (load_dictionary_succeeds (str "Anyway" ++ [LF; LF] ++ str "any")
           demo_store [true; true]).
  reflexivity.
Defined.

(** * Edits and the distance *)

Lemma same_char_eq x y : x = y → same_char x y = true.
Proof. intros ->. apply same_char_refl. Qed.

(** The three moves of the recurrence, as inequalities. *)
Lemma osa_distance_moves a b i j :
  (1 ≤ i)%nat → (1 ≤ j)%nat →
  osa_distance a b i j <= osa_distance a b (i - 1) j + 1
  ∧ osa_distance a b i j <= osa_distance a b i (j - 1) + 1
  ∧ osa_distance a b i j
    <= osa_distance a b (i - 1) (j - 1)
       + (if same_char (char_at a (i - 1)) (char_at b (j - 1)) then 0 else 1).
Proof.
  intros Hi Hj. rewrite (osa_distance_step a b i j) by done. cbv zeta.
  repeat case_match; lia.
Qed.

Lemma osa_distance_transpose a b i j :
  (2 ≤ i)%nat → (2 ≤ j)%nat →
  char_at a (i - 1) = char_at b (j - 2) →
  char_at a (i - 2) = char_at b (j - 1) →
  osa_distance a b i j <= osa_distance a b (i - 2) (j - 2) + 1.
Proof.
  intros Hi Hj H1 H2. rewrite (osa_distance_step a b i j) by lia. cbv zeta.
  rewrite (same_char_eq _ _ H1), (same_char_eq _ _ H2).
  destruct (Nat.ltb_spec 1 i); [|lia]. destruct (Nat.ltb_spec 1 j); [|lia].
  simpl. lia.
Qed.

Lemma osa_distance_column a b i : ∀ k,
  osa_distance a b (i + k) i <= osa_distance a b i i + Z.of_nat k.
Proof.
  induction k as [|k IH]; [rewrite Nat.add_0_r; lia|].
  destruct (decide (i = 0%nat)) as [->|Hi].
  { rewrite osa_distance_0_r, osa_distance_0_l. lia. }
  destruct (osa_distance_moves a b (i + S k) i) as (Hdel & _ & _); [lia..|].
  replace (i + S k - 1)%nat with (i + k)%nat in Hdel by lia. lia.
Qed.

Lemma osa_distance_row a b i : ∀ k,
  osa_distance a b i (i + k) <= osa_distance a b i i + Z.of_nat k.
Proof.
  induction k as [|k IH]; [rewrite Nat.add_0_r; lia|].
  destruct (decide (i = 0%nat)) as [->|Hi].
  { rewrite !osa_distance_0_l. lia. }
  destruct (osa_distance_moves a b i (i + S k)) as (_ & Hins & _); [lia..|].
  replace (i + S k - 1)%nat with (i + k)%nat in Hins by lia. lia.
Qed.

(** Equal characters from two positions on cost nothing. *)
Lemma osa_distance_common a b i j : ∀ k,
  (∀ t, (t < k)%nat → a !! (i + t)%nat = b !! (j + t)%nat) →
  osa_distance a b (i + k) (j + k) <= osa_distance a b i j.
Proof.
  induction k as [|k IH]; intros Heq; [rewrite !Nat.add_0_r; lia|].
  destruct (osa_distance_moves a b (i + S k) (j + S k)) as (_ & _ & Hd);
    [lia..|].
  replace (i + S k - 1)%nat with (i + k)%nat in Hd by lia.
  replace (j + S k - 1)%nat with (j + k)%nat in Hd by lia.
  unfold char_at in Hd. rewrite (same_char_eq _ _ (Heq k ltac:(lia))) in Hd.
  specialize (IH ltac:(intros t Ht; apply Heq; lia)). lia.
Qed.

(** The recurrence at [(i, j)] reads only the first [i] and [j]
    characters. *)
Lemma osa_distance_local a b a2 b2 : ∀ n i j,
  (i + j < n)%nat →
  (∀ t, (t < i)%nat → a !! t = a2 !! t) →
  (∀ t, (t < j)%nat → b !! t = b2 !! t) →
  osa_distance a b i j = osa_distance a2 b2 i j.
Proof.
  induction n as [|n IH]; intros i j Hn Ha Hb; [lia|].
  destruct (decide (i = 0%nat)) as [->|Hi]; [by rewrite !osa_distance_0_l|].
  destruct (decide (j = 0%nat)) as [->|Hj]; [by rewrite !osa_distance_0_r|].
  rewrite (osa_distance_step a b), (osa_distance_step a2 b2) by lia.
  cbv zeta. unfold char_at.
  rewrite (Ha (i - 1)%nat), (Hb (j - 1)%nat) by lia.
  rewrite (IH (i - 1)%nat j), (IH i (j - 1)%nat),
    (IH (i - 1)%nat (j - 1)%nat)
    by (lia || (intros; (apply Ha || apply Hb); lia)).
  destruct (Nat.ltb_spec 1 i), (Nat.ltb_spec 1 j); simpl; try done.
  rewrite (Ha (i - 2)%nat), (Hb (j - 2)%nat) by lia.
  rewrite (IH (i - 2)%nat (j - 2)%nat)
    by (lia || (intros; (apply Ha || apply Hb); lia)).
  done.
Qed.

(** A common prefix does not add to the recurrence. *)
Lemma osa_distance_shift p a b : ∀ n i j,
  (i + j < n)%nat →
  osa_distance (p ++ a) (p ++ b) (length p + i) (length p + j)
  <= osa_distance a b i j.
Proof.
  assert (osa_distance (p ++ a) (p ++ b) (length p) (length p) <= 0) as Hp.
  { pose proof (osa_distance_common (p ++ a) (p ++ b) 0 0 (length p)) as H.
    simpl in H. etrans; [apply H|done].
    intros t Ht. by rewrite !lookup_app_l. }
  assert (∀ (s : cstring) t, (p ++ s) !! (length p + t)%nat = s !! t) as Hl.
  { intros s t. rewrite lookup_app_r by lia. f_equal. lia. }
  induction n as [|n IH]; intros i j Hn; [lia|].
  destruct (decide (i = 0%nat)) as [->|Hi].
  { rewrite Nat.add_0_r, osa_distance_0_l.
    pose proof (osa_distance_row (p ++ a) (p ++ b) (length p) j). lia. }
  destruct (decide (j = 0%nat)) as [->|Hj].
  { rewrite Nat.add_0_r, osa_distance_0_r.
    pose proof (osa_distance_column (p ++ a) (p ++ b) (length p) i). lia. }
  destruct (osa_distance_moves (p ++ a) (p ++ b) (length p + i) (length p + j))
    as (Hdel & Hins & Hsub); [lia..|].
  replace (length p + i - 1)%nat with (length p + (i - 1))%nat in * by lia.
  replace (length p + j - 1)%nat with (length p + (j - 1))%nat in * by lia.
  unfold char_at in Hsub. rewrite !Hl in Hsub.
  pose proof (IH (i - 1)%nat j ltac:(lia)).
  pose proof (IH i (j - 1)%nat ltac:(lia)).
  pose proof (IH (i - 1)%nat (j - 1)%nat ltac:(lia)).
  rewrite (osa_distance_step a b i j) by lia. cbv zeta. unfold char_at.
  destruct ((1 <? i)%nat && (1 <? j)%nat
            && same_char (a !! (i - 1)%nat) (b !! (j - 2)%nat)
            && same_char (a !! (i - 2)%nat) (b !! (j - 1)%nat)) eqn:Hc.
  - apply andb_prop in Hc as [Hc Hc2]. apply andb_prop in Hc as [Hc Hc1].
    apply andb_prop in Hc as [Hi1 Hj1]. apply Nat.ltb_lt in Hi1, Hj1.
    pose proof (IH (i - 2)%nat (j - 2)%nat ltac:(lia)).
    assert (osa_distance (p ++ a) (p ++ b) (length p + i) (length p + j)
            <= osa_distance (p ++ a) (p ++ b) (length p + (i - 2))
                 (length p + (j - 2)) + 1) as Htr.
    { rewrite (osa_distance_step (p ++ a) (p ++ b)) by lia. cbv zeta.
      unfold char_at.
      replace (length p + i - 1)%nat with (length p + (i - 1))%nat by lia.
      replace (length p + j - 1)%nat with (length p + (j - 1))%nat by lia.
      replace (length p + i - 2)%nat with (length p + (i - 2))%nat by lia.
      replace (length p + j - 2)%nat with (length p + (j - 2))%nat by lia.
      rewrite !Hl, Hc1, Hc2.
      destruct (Nat.ltb_spec 1 (length p + i)); [|lia].
      destruct (Nat.ltb_spec 1 (length p + j)); [|lia].
      simpl. lia. }
    case_match; lia.
  - case_match; lia.
Qed.

(** On the recurrence: a common prefix and a common suffix do not add to
    the distance. *)
Lemma osa_distance_affixes p q a b :
  osa_distance (p ++ a ++ q) (p ++ b ++ q)
    (strlen (p ++ a ++ q)) (strlen (p ++ b ++ q))
  <= osa_distance a b (strlen a) (strlen b).
Proof.
  unfold strlen. rewrite !length_app.
  etrans; [apply (osa_distance_shift p (a ++ q) (b ++ q)
                    (S (length a + length q + (length b + length q))));
           lia|].
  etrans; [apply (osa_distance_common (a ++ q) (b ++ q) (length a) (length b)
                    (length q))|].
  { intros t Ht. rewrite !lookup_app_r by lia. f_equal. lia. }
  rewrite (osa_distance_local (a ++ q) (b ++ q) a b
             (S (length a + length b))); [done | lia | |];
    intros t Ht; by rewrite lookup_app_l.
Qed.

Lemma allocations_never_fail n h :
  forallb (fun ok => ok) h = true → allocations_succeed n h = true.
Proof.
  intros H. unfold allocations_succeed. apply forallb_forall.
  intros ok Hok%list_elem_of_In%take_elem_of%list_elem_of_In.
  rewrite forallb_forall in H. by apply H.
Qed.

(** [X18] Context does not add to the distance: surrounding two strings by
    a common prefix and a common suffix gives a distance no larger than
    the distance of the two strings (no allocation failing). *)
Theorem distance_common_affixes (p q a b : cstring) (h1 h2 : heap) :
  forallb (fun ok => ok) h1 = true →
  forallb (fun ok => ok) h2 = true →
  fst (damerau_levenshtein_distance (p ++ a ++ q) (p ++ b ++ q) h1)
  <= fst (damerau_levenshtein_distance a b h2).
Proof.
  intros H1 H2.
  rewrite !distance_alloc_ok by (by apply allocations_never_fail).
  apply osa_distance_affixes.
Qed.

Lemma distance_common_affixes_witness :
  fst (damerau_levenshtein_distance
         (str "un" ++ str "nay" ++ str "way")
         (str "un" ++ str "any" ++ str "way") [true])
  <= fst (damerau_levenshtein_distance (str "nay") (str "any") []).
Proof. apply distance_common_affixes; reflexivity. Defined.

Lemma osa_distance_one a b :
  a ≠ b →
  osa_distance a b (strlen a) (strlen b) <= 1 →
  osa_distance a b (strlen a) (strlen b) = 1.
Proof.
  intros Hne Hle.
  pose proof (osa_distance_nonneg a b (strlen a) (strlen b)).
  destruct (decide (osa_distance a b (strlen a) (strlen b) = 0)) as [H0|];
    [|lia].
  apply (osa_distance_zero_prefix a b (S (strlen a + strlen b))) in H0;
    [|unfold strlen; lia..].
  unfold strlen in H0. rewrite !firstn_all in H0. done.
Qed.

(** [X19] One edit costs one: with no allocation failing, substituting one
    character, or swapping two adjacent characters, gives distance 1 (0
    when the characters are equal), and inserting or deleting one
    character gives distance 1. *)
Theorem single_edit_distance (p q : cstring) (x y : ascii) (h : heap) :
  forallb (fun ok => ok) h = true →
  fst (damerau_levenshtein_distance (p ++ x :: q) (p ++ y :: q) h)
    = (if char_eqb x y then 0 else 1)
  ∧ fst (damerau_levenshtein_distance (p ++ x :: y :: q) (p ++ y :: x :: q) h)
    = (if char_eqb x y then 0 else 1)
  ∧ fst (damerau_levenshtein_distance (p ++ q) (p ++ x :: q) h) = 1
  ∧ fst (damerau_levenshtein_distance (p ++ x :: q) (p ++ q) h) = 1.
Proof.
  intros Hh.
  rewrite !distance_alloc_ok by (by apply allocations_never_fail).
  split; [|split; [|split]].
  - destruct (char_eqb x y) eqn:E.
    { apply char_eqb_eq in E as ->. apply osa_distance_diag. }
    apply osa_distance_one.
    + intros [= ->]%app_inv_head. unfold char_eqb in E.
      by rewrite Ascii.eqb_refl in E.
    + etrans; [apply (osa_distance_affixes p q [x] [y])|].
      simpl. rewrite E. done.
  - destruct (char_eqb x y) eqn:E.
    { apply char_eqb_eq in E as ->. apply osa_distance_diag. }
    apply osa_distance_one.
    + intros [= -> _]%app_inv_head. unfold char_eqb in E.
      by rewrite Ascii.eqb_refl in E.
    + etrans; [apply (osa_distance_affixes p q [x; y] [y; x])|].
      etrans; [apply osa_distance_transpose; simpl; (done || lia)|done].
  - apply osa_distance_one.
    + intros Heq%(f_equal length). rewrite !length_app in Heq.
      simpl in Heq. lia.
    + apply (osa_distance_affixes p q [] [x]).
  - apply osa_distance_one.
    + intros Heq%(f_equal length). rewrite !length_app in Heq.
      simpl in Heq. lia.
    + apply (osa_distance_affixes p q [x] []).
Qed.

Lemma single_edit_distance_witness :
  fst (damerau_levenshtein_distance (str "an" ++ "y"%char :: str "way")
         (str "an" ++ "i"%char :: str "way") [true])
    = (if char_eqb "y" "i" then 0 else 1)
  ∧ fst (damerau_levenshtein_distance
           (str "an" ++ "y"%char :: "i"%char :: str "way")
           (str "an" ++ "i"%char :: "y"%char :: str "way") [true])
    = (if char_eqb "y" "i" then 0 else 1)
  ∧ fst (damerau_levenshtein_distance (str "an" ++ str "way")
           (str "an" ++ "y"%char :: str "way") [true]) = 1
  ∧ fst (damerau_levenshtein_distance (str "an" ++ "y"%char :: str "way")
           (str "an" ++ str "way") [true]) = 1.
Proof. apply single_edit_distance. reflexivity. Defined.

(** * The two queries agree *)

Lemma is_word_correct_elem g query :
  lower_copy query ∈ store_words g → is_word_correct g query = 1.
Proof.
  unfold store_words, is_word_correct.
  destruct (dictionary g) as [arr|]; [|by intros ?%elem_of_nil].
  destruct (Nat.eqb_spec (dictionary_count g) 0) as [->|_].
  - by intros ?%elem_of_nil.
  - apply find_word_spec.
Qed.

(** [X20] A suggestion at distance 0 is the query itself, and then the
    query is a correct word: [get_suggestions] returns a distance of 0 only
    for the lower-cased query, and [is_word_correct] returns 1 for it. *)
Theorem zero_distance_suggestion_is_query (g : globals) (query : cstring)
    (tolerance misspelled_word_len length_tolerance : Z)
    (suggestions : list Suggestion) (h : heap) (s : Suggestion) :
  store_ok g = true →
  (MAX_TEMP_SUGGESTIONS ≤ length suggestions)%nat →
  s ∈ returned (get_suggestions g query tolerance misspelled_word_len
                  length_tolerance suggestions h) →
  dist s = 0 →
  word s = lower_copy query ∧ is_word_correct g query = 1.
Proof.
  intros Hok Hbuf Hs Hd0.
  apply returned_is_accepted in Hs; [|done..].
  apply qualifying_accepts in Hs as (Hw & _ & _ & Hd).
  rewrite Hd0 in Hd. symmetry in Hd.
  apply (osa_distance_zero_prefix (lower_copy query) (word s)
           (S (strlen (lower_copy query) + strlen (word s)))) in Hd;
    [|unfold strlen; lia..].
  unfold strlen in Hd. rewrite !firstn_all in Hd.
  split; [done|]. apply is_word_correct_elem. by rewrite Hd.
Qed.

Lemma zero_distance_suggestion_is_query_witness :
  str "airway" = lower_copy (str "AirWay")
  ∧ is_word_correct demo_store (str "AirWay") = 1.
Proof.
  apply (zero_distance_suggestion_is_query demo_store (str "AirWay") 2 6 1
           fresh_buffer [] {| word := str "airway"; dist := 0 |}).
  - reflexivity.
  - unfold fresh_buffer. rewrite length_replicate. reflexivity.
  - vm_compute. apply list_elem_of_here.
  - reflexivity.
Defined.

(** [X21] Suggestions are dictionary words: against a store left by
    [load_dictionary], every word that [get_suggestions] returns is
    reported correct by [is_word_correct]. *)
Theorem suggestions_are_correct_words (file : option (list ascii))
    (g0 : globals) (h0 : heap) (query : cstring)
    (tolerance misspelled_word_len length_tolerance : Z)
    (suggestions : list Suggestion) (h : heap) (s : Suggestion) :
  (MAX_TEMP_SUGGESTIONS ≤ length suggestions)%nat →
  s ∈ returned (get_suggestions (snd (fst (load_dictionary file g0 h0)))
                  query tolerance misspelled_word_len length_tolerance
                  suggestions h) →
  is_word_correct (snd (fst (load_dictionary file g0 h0))) (word s) = 1.
Proof.
  intros Hbuf Hs.
  pose proof (load_dictionary_result file g0 h0) as Hres.
  pose proof (load_words_normal file g0 h0 (word s)) as Hnormal.
  destruct (load_dictionary file g0 h0) as [[r g] h1]. simpl in *.
  destruct Hres as [Hok _].
  apply returned_is_accepted in Hs; [|done..].
  apply qualifying_accepts in Hs as (Hw & _).
  apply is_word_correct_elem.
  pose proof (store_ok_words g Hok) as Hall.
  rewrite Forall_forall in Hall. pose proof (Hall _ Hw) as Hlen.
  unfold lower_copy, strncpy.
  rewrite take_ge by (unfold strlen, MAX_WORD_LEN in *; lia).
  rewrite normal_word_fixed; [done | by apply Hnormal].
Qed.

Lemma suggestions_are_correct_words_witness :
  is_word_correct
    (snd (fst (load_dictionary
                 (Some (word_file [str "Anyway"; str "any"; str "AIRWAY"]))
                 initial_globals [])))
    (str "anyway") = 1.
Proof.
  apply (suggestions_are_correct_words
           (Some (word_file [str "Anyway"; str "any"; str "AIRWAY"]))
           initial_globals [] (str "nayway") 3 6 2 fresh_buffer []
           {| word := str "anyway"; dist := 1 |}).
  - unfold fresh_buffer. rewrite length_replicate. reflexivity.
  - vm_compute. apply list_elem_of_here.
Defined.

(** * Growing the dictionary *)

Lemma word_file_app ws1 ws2 :
  word_file (ws1 ++ ws2) = word_file ws1 ++ word_file ws2.
Proof. unfold word_file. apply flat_map_app. Qed.

Lemma word_file_cons w ws : word_file (w :: ws) = w ++ LF :: word_file ws.
Proof. unfold word_file. simpl. by rewrite <- app_assoc. Qed.

(** With an allocator that never fails, the load loop stores every clean
    word of the file, growing the array when it is full. *)
Lemma read_lines_word_file_grow ws : ∀ fuel arr count capacity h,
  forallb clean_word ws = true →
  forallb (fun ok => ok) h = true →
  (length (word_file ws) ≤ fuel)%nat →
  ∃ capacity' h',
    read_lines fuel (word_file ws) arr count capacity h
    = Some (1, {| dictionary := Some (arr ++ map (map tolower) ws);
                  dictionary_count := count + length ws;
                  dictionary_capacity := capacity' |}, h').
Proof.
  induction ws as [|w ws IH]; intros fuel arr count capacity h Hws Hh Hfuel.
  - exists capacity, h. simpl. rewrite read_lines_eof by done.
    by rewrite app_nil_r, Nat.add_0_r.
  - simpl in Hws. apply andb_prop in Hws as [Hw Hws].
    rewrite word_file_cons in *.
    destruct fuel as [|fuel];
      [rewrite length_app in Hfuel; simpl in Hfuel; lia|].
    rewrite read_lines_clean_line by done.
    assert (length (word_file ws) ≤ fuel)%nat as Hfuel'
      by (rewrite length_app in Hfuel; simpl in Hfuel; lia).
    assert (∀ capacity1 h1, forallb (fun ok => ok) h1 = true →
      ∃ capacity' h',
        read_lines fuel (word_file ws) (arr ++ [map tolower w]) (S count)
          capacity1 h1
        = Some (1, {| dictionary :=
                        Some (arr ++ map (map tolower) (w :: ws));
                      dictionary_count := count + length (w :: ws);
                      dictionary_capacity := capacity' |}, h')) as Hrec.
    { intros capacity1 h1 Hh1.
      destruct (IH fuel (arr ++ [map tolower w]) (S count) capacity1 h1)
        as (capacity' & h' & ->); [done..|].
      exists capacity', h'. rewrite <- app_assoc. simpl.
      do 4 f_equal. lia. }
    destruct (Z.of_nat count >=? capacity); [|by apply Hrec].
    destruct h as [|ok h1]; simpl; [by apply Hrec|].
    simpl in Hh. apply andb_prop in Hh as [-> Hh]. simpl. by apply Hrec.
Qed.

(** [X22] Growth loses nothing: when no allocation fails, loading a file
    of clean words, one per line and however many, returns 1 with a store
    that holds the lower-case foldings of all the words, in file order. *)
Theorem load_dictionary_grows (ws : list cstring) (g : globals) (h : heap) :
  forallb clean_word ws = true →
  forallb (fun ok => ok) h = true →
  let r := load_dictionary (Some (word_file ws)) g h in
  fst (fst r) = 1
  ∧ dictionary (snd (fst r)) = Some (map (map tolower) ws)
  ∧ dictionary_count (snd (fst r)) = length ws.
Proof.
  intros Hws Hh. unfold load_dictionary. cbv zeta.
  assert (∃ h1, malloc h = (true, h1) ∧ forallb (fun ok => ok) h1 = true)
    as (h1 & -> & Hh1).
  { destruct h as [|ok h1]; simpl; [by exists []|].
    simpl in Hh. apply andb_prop in Hh as [-> Hh]. by exists h1. }
  simpl negb. cbv iota.
  destruct (read_lines_word_file_grow ws (length (word_file ws)) [] 0
              DICTIONARY_SIZE h1) as (capacity' & h' & ->); done.
Qed.

Lemma load_dictionary_grows_witness :
  let r := load_dictionary
             (Some (word_file [str "Anyway"; str "any"; str "AIRWAY"]))
             demo_store [true; true] in
  fst (fst r) = 1
  ∧ dictionary (snd (fst r))
    = Some (map (map tolower) [str "Anyway"; str "any"; str "AIRWAY"])
  ∧ dictionary_count (snd (fst r))
    = length [str "Anyway"; str "any"; str "AIRWAY"].
Proof. apply load_dictionary_grows; reflexivity. Defined.

(** The load loop over a file that starts with clean words, while the
    array has room: it reaches the rest of the file with the words
    stored. *)
Lemma read_lines_word_file_then ws : ∀ fuel rest arr count capacity h,
  forallb clean_word ws = true →
  Z.of_nat (count + length ws) <= capacity →
  (length (word_file ws ++ rest) ≤ fuel)%nat →
  read_lines fuel (word_file ws ++ rest) arr count capacity h
  = read_lines (length rest) rest (arr ++ map (map tolower) ws)
      (count + length ws) capacity h.
Proof.
  induction ws as [|w ws IH];
    intros fuel rest arr count capacity h Hws Hcap Hfuel.
  - simpl in *. rewrite app_nil_r, Nat.add_0_r.
    by apply read_lines_fuel.
  - simpl in Hws. apply andb_prop in Hws as [Hw Hws].
    rewrite word_file_cons in *. rewrite <- app_assoc in *. simpl app in *.
    destruct fuel as [|fuel];
      [rewrite length_app in Hfuel; simpl in Hfuel; lia|].
    rewrite read_lines_clean_line by done.
    simpl length in Hcap.
    destruct (Z.geb_spec (Z.of_nat count) capacity); [lia|].
    rewrite IH; [|done|lia|rewrite length_app in Hfuel; simpl in Hfuel; lia].
    rewrite <- app_assoc. simpl. do 3 f_equal. lia.
Qed.

(** [X23] A failed growth discards everything: when the file holds more
    than [DICTIONARY_SIZE] clean words, the first allocation succeeds and
    the reallocation that the next word needs fails, [load_dictionary]
    returns 0 and leaves no dictionary: the words already read are not
    kept. *)
Theorem load_dictionary_growth_failure (ws : list cstring) (g : globals)
    (h : heap) :
  forallb clean_word ws = true →
  DICTIONARY_SIZE < Z.of_nat (length ws) →
  load_dictionary (Some (word_file ws)) g (true :: false :: h)
  = (0, {| dictionary := None; dictionary_count := 0;
           dictionary_capacity := 0 |}, h).
Proof.
  intros Hws Hlen. unfold load_dictionary. cbv zeta. simpl malloc. simpl negb.
  cbv iota.
  assert (∃ n : nat, Z.of_nat n = DICTIONARY_SIZE) as [n Hn].
  { exists (Z.to_nat DICTIONARY_SIZE). by apply Z2Nat.id. }
  rewrite <- (take_drop n ws) in Hws |- *.
  rewrite forallb_app in Hws. apply andb_prop in Hws as [Hws1 Hws2].
  assert (length (take n ws) = n) as Hl1 by (rewrite length_take; lia).
  destruct (drop n ws) as [|w ws2] eqn:Hdrop.
  { apply (f_equal length) in Hdrop. rewrite length_drop in Hdrop.
    simpl in Hdrop. lia. }
  simpl in Hws2. apply andb_prop in Hws2 as [Hw _].
  rewrite word_file_app.
  rewrite read_lines_word_file_then; [|done| |done].
  2:{ rewrite Hl1. lia. }
  rewrite word_file_cons.
  destruct (length (w ++ LF :: word_file ws2)) as [|fuel] eqn:Hf.
  { rewrite length_app in Hf. simpl in Hf. lia. }
  rewrite read_lines_clean_line by done.
  rewrite Hl1, Nat.add_0_l, Hn.
  destruct (Z.geb_spec DICTIONARY_SIZE DICTIONARY_SIZE) as [_|Hlt]; [done|].
  lia.
Qed.

Lemma forallb_replicate {A} (f : A → bool) n x :
  f x = true → forallb f (replicate n x) = true.
Proof. intros H. induction n as [|n IH]; simpl; [done | by rewrite H]. Qed.

Lemma load_dictionary_growth_failure_witness :
  load_dictionary
    (Some (word_file (replicate (Z.to_nat 375001) (str "any"))))
    demo_store [true; false; true]
  = (0, {| dictionary := None; dictionary_count := 0;
           dictionary_capacity := 0 |}, [true]).
Proof.
  apply (load_dictionary_growth_failure
           (replicate (Z.to_nat 375001) (str "any")) demo_store [true]).
  - apply forallb_replicate. reflexivity.
  - rewrite length_replicate, Z2Nat.id by discriminate. reflexivity.
Defined.
